(** * Genesis frontend: graph store, physics engine and canvas gestures

    A shallow embedding of
    - [lib/store.ts]      (the zustand store and its merge [addGraphData]),
    - [lib/physics.ts]    (the [PhysicsEngine] wrapper around a d3 simulation),
    - [components/GraphCanvas.tsx] (hit test, click, wheel and touch handlers),
    together with the properties the specification states about them.

    JavaScript objects are mutable and shared by reference: node and link
    objects live in a heap ([gmap nat _]) and arrays hold references.
    JavaScript numbers are modelled by [JSNum.num]. *)

From Stdlib Require Import QArith Qabs Lqa Ascii.
From stdpp Require Import gmap strings list.

Local Open Scope Q_scope.

(** ** JavaScript numbers *)

Module JSNum.

(** A number is a finite value, one of the two infinities, or NaN.  Finite
    values are exact rationals: rounding and overflow of IEEE doubles are not
    modelled, and the two zeros are not told apart (every divisor in the
    modelled code is a distance or a clamped scale, never a negative zero). *)
Inductive num : Type :=
  | Num (q : Q)
  | PInf
  | NInf
  | NaN.

Definition Qsgn (q : Q) : Z := Z.sgn (Qnum q).

Definition neg (a : num) : num :=
  match a with
  | Num q => Num (- q)
  | PInf => NInf
  | NInf => PInf
  | NaN => NaN
  end.

Definition add (a b : num) : num :=
  match a, b with
  | NaN, _ | _, NaN => NaN
  | Num p, Num q => Num (p + q)
  | PInf, NInf | NInf, PInf => NaN
  | PInf, _ | _, PInf => PInf
  | NInf, _ | _, NInf => NInf
  end.

Definition sub (a b : num) : num := add a (neg b).

(** An infinity times [z]: NaN for zero, otherwise the infinity of the
    product's sign. *)
Definition inf_signed (s : Z) : num :=
  match s with
  | Z0 => NaN
  | Zpos _ => PInf
  | Zneg _ => NInf
  end.

Definition mul (a b : num) : num :=
  match a, b with
  | NaN, _ | _, NaN => NaN
  | Num p, Num q => Num (p * q)
  | Num p, PInf | PInf, Num p => inf_signed (Qsgn p)
  | Num p, NInf | NInf, Num p => inf_signed (- Qsgn p)
  | PInf, PInf | NInf, NInf => PInf
  | PInf, NInf | NInf, PInf => NInf
  end.

(** Division: [0/0] and [Infinity/Infinity] are NaN, [x/0] is the infinity of
    the sign of [x], and a finite number over an infinity is zero. *)
Definition div (a b : num) : num :=
  match a, b with
  | NaN, _ | _, NaN => NaN
  | Num p, Num q =>
      if Qeq_bool q 0 then inf_signed (Qsgn p) else Num (p / q)
  | Num _, (PInf | NInf) => Num 0
  | (PInf | NInf), (PInf | NInf) => NaN
  | PInf, Num q => if Qeq_bool q 0 then PInf else inf_signed (Qsgn q)
  | NInf, Num q => if Qeq_bool q 0 then NInf else inf_signed (- Qsgn q)
  end.

(** [a < b]; every comparison with NaN is false. *)
Definition lt (a b : num) : bool :=
  match a, b with
  | NaN, _ | _, NaN => false
  | Num p, Num q => negb (Qle_bool q p)
  | _, NInf => false
  | NInf, _ => true
  | PInf, _ => false
  | _, PInf => true
  end.

Definition gt (a b : num) : bool := lt b a.

(** [Math.max] and [Math.min] return NaN as soon as one argument is NaN. *)
Definition max (a b : num) : num :=
  match a, b with
  | NaN, _ | _, NaN => NaN
  | _, _ => if lt a b then b else a
  end.

Definition min (a b : num) : num :=
  match a, b with
  | NaN, _ | _, NaN => NaN
  | _, _ => if lt b a then b else a
  end.

Definition abs (a : num) : num :=
  match a with
  | Num q => Num (Qabs q)
  | PInf | NInf => PInf
  | NaN => NaN
  end.

(** [Math.sqrt].  Exact on squares of rationals; any other finite value is
    truncated to a multiple of [1 / (d * 2^52)], [d] the denominator. *)
Definition sqrt (a : num) : num :=
  match a with
  | Num q =>
      if negb (Qle_bool 0 q) then NaN
      else Num (Z.sqrt (Qnum q * Zpos (Qden q) * 2 ^ 104)
                # (Qden q * 2 ^ 52))
  | PInf => PInf
  | NInf | NaN => NaN
  end.

(** Truthiness of a number: [0] and NaN are falsy. *)
Definition truthy (a : num) : bool :=
  match a with
  | Num q => negb (Qeq_bool q 0)
  | PInf | NInf => true
  | NaN => false
  end.

(** Numeric equality up to the representation of fractions. *)
Definition equiv (a b : num) : Prop :=
  match a, b with
  | Num p, Num q => p == q
  | PInf, PInf | NInf, NInf | NaN, NaN => True
  | _, _ => False
  end.

(** [lo <= a <= hi] for a finite [a]; false of the infinities and of NaN. *)
Definition within (lo hi : Q) (a : num) : Prop :=
  match a with
  | Num q => lo <= q /\ q <= hi
  | _ => False
  end.

Definition is_NaN (a : num) : bool :=
  match a with NaN => true | _ => false end.

End JSNum.

Declare Scope js_scope.
Delimit Scope js_scope with js.
Bind Scope js_scope with JSNum.num.
Infix "+" := JSNum.add : js_scope.
Infix "-" := JSNum.sub : js_scope.
Infix "*" := JSNum.mul : js_scope.
Infix "/" := JSNum.div : js_scope.
Notation "- a" := (JSNum.neg a) : js_scope.
Infix "<?" := JSNum.lt : js_scope.
Infix ">?" := JSNum.gt : js_scope.
Infix "≈" := JSNum.equiv (at level 70, no associativity) : js_scope.

Import JSNum.

(** ** The store: [lib/store.ts] *)

Module Store.

Inductive NodeType := today | cited | expanded | center.

(** An optional number-or-null field such as [fx?: number | null]. *)
Inductive Pin :=
  | PinUndefined
  | PinNull
  | PinAt (v : num).

Record Node := mkNode {
  id : string;
  title : option string;
  summary : option string;
  domain : option string;
  type : NodeType;
  first_author : option string;
  author_count : option num;
  year : option string;
  key_contributions : option (list string);
  methodology : option string;
  x : option num;
  y : option num;
  fx : Pin;
  fy : Pin;
  vx : option num;
  vy : option num
}.

(** References to node and link objects. *)
Definition nref := nat.
Definition lref := nat.

(** [source: string | Node]: a raw id or a reference to a node object. *)
Inductive Endpoint :=
  | EId (s : string)
  | ENode (r : nref).

Inductive LinkType := CITES.

Record Link := mkLink {
  source : Endpoint;
  target : Endpoint;
  ltype : LinkType
}.

Record GraphData := mkGraph {
  nodes : list nref;
  links : list lref
}.

(** The object heap: every node and link object ever allocated. *)
Record Heap := mkHeap {
  nodeObjs : gmap nat Node;
  linkObjs : gmap nat Link
}.

(** [n.id] of the object behind a reference.  References held by live arrays
    always point to an allocated object; the default is for the others. *)
Definition nodeId (h : Heap) (r : nref) : string :=
  match nodeObjs h !! r with
  | Some n => id n
  | None => EmptyString
  end.

(** [typeof e === 'string' ? e : e.id] *)
Definition endpointId (h : Heap) (e : Endpoint) : string :=
  match e with
  | EId s => s
  | ENode r => nodeId h r
  end.

Definition linkSourceId (h : Heap) (l : lref) : string :=
  match linkObjs h !! l with
  | Some o => endpointId h (source o)
  | None => EmptyString
  end.

Definition linkTargetId (h : Heap) (l : lref) : string :=
  match linkObjs h !! l with
  | Some o => endpointId h (target o)
  | None => EmptyString
  end.

(** The template string [`${source id}-${target id}`]. *)
Definition linkKey (h : Heap) (l : lref) : string :=
  (linkSourceId h l ++ "-" ++ linkTargetId h l)%string.

Record PaperDetail := mkPaperDetail {
  arxiv_id : string;
  detail_title : string;
  authors : list string;
  abstract : string;
  pdf_url : string;
  publication_date : string;
  detail_domain : string
}.

Inductive UIState := INITIAL_LOADING | GRAPH_VIEW | DETAIL_VIEW.

(** The zustand state (the fields of [GenesisStore] that are data). *)
Record State := mkState {
  uiState : UIState;
  graphData : GraphData;
  selectedPaper : option string;
  paperDetail : option PaperDetail;
  insight : option string;
  isGeneratingInsight : bool;
  isLoadingGraph : bool;
  isExpandingNode : bool;
  expandingNodeId : option string;
  hoveredNode : option string;
  cameraTarget : option (num * num)
}.

Definition initialState : State :=
  {| uiState := INITIAL_LOADING;
     graphData := {| nodes := []; links := [] |};
     selectedPaper := None;
     paperDetail := None;
     insight := None;
     isGeneratingInsight := false;
     isLoadingGraph := false;
     isExpandingNode := false;
     expandingNodeId := None;
     hoveredNode := None;
     cameraTarget := None |}.

Definition set_graphData (g : GraphData) (s : State) : State :=
  {| uiState := uiState s; graphData := g;
     selectedPaper := selectedPaper s; paperDetail := paperDetail s;
     insight := insight s;
     isGeneratingInsight := isGeneratingInsight s;
     isLoadingGraph := isLoadingGraph s;
     isExpandingNode := isExpandingNode s;
     expandingNodeId := expandingNodeId s;
     hoveredNode := hoveredNode s; cameraTarget := cameraTarget s |}.

(** The merge proper: the graph that [addGraphData] hands to [set]. *)
Definition merge (h : Heap) (current data : GraphData) : GraphData :=
  let existingNodeIds : gset string := list_to_set (nodeId h <$> nodes current) in
  let existingLinks : gset string := list_to_set (linkKey h <$> links current) in
  let newNodes := filter (λ n, nodeId h n ∉ existingNodeIds) (nodes data) in
  let newLinks := filter (λ l, linkKey h l ∉ existingLinks) (links data) in
  {| nodes := nodes current ++ newNodes;
     links := links current ++ newLinks |}.

(** [addGraphData]: reads the heap, writes only the store's [graphData]. *)
Definition addGraphData (data : GraphData) (w : Heap * State) : Heap * State :=
  let '(h, s) := w in
  let current := graphData s in
  (h, set_graphData (merge h current data) s).

End Store.

(** ** The physics engine: [lib/physics.ts] *)

Module Physics.
Import Store.

(** The d3 simulation as far as [PhysicsEngine] drives it.  Following the
    d3-force API: a new simulation has [alpha = 1] and a running timer;
    [alpha(a)] sets the energy, [restart()] restarts the internal timer and
    [stop()] stops it, neither touching [alpha]; each step of the timer moves
    [alpha] towards the target 0 by the factor [alphaDecay] and stops the
    timer once [alpha] is under [alphaMin = 0.001].  Forces, positions and
    velocities are not modelled. *)
Record Simulation := mkSim {
  simNodes : list nref;
  simLinks : list lref;
  alpha : Q;
  running : bool
}.

Definition sim_alpha (a : Q) (s : Simulation) : Simulation :=
  {| simNodes := simNodes s; simLinks := simLinks s;
     alpha := a; running := running s |}.

Definition sim_restart (s : Simulation) : Simulation :=
  {| simNodes := simNodes s; simLinks := simLinks s;
     alpha := alpha s; running := true |}.

Definition sim_stop (s : Simulation) : Simulation :=
  {| simNodes := simNodes s; simLinks := simLinks s;
     alpha := alpha s; running := false |}.

(** [.alphaDecay(0.02)] in the constructor of [PhysicsEngine]. *)
Definition alphaDecay : Q := 0.02.
Definition alphaMin : Q := 0.001.

Definition sim_step (s : Simulation) : Simulation :=
  if running s then
    let a := Qred (alpha s + (0 - alpha s) * alphaDecay) in
    {| simNodes := simNodes s; simLinks := simLinks s;
       alpha := a; running := Qle_bool alphaMin a |}
  else s.

Record PhysicsEngine := mkEngine {
  simulation : Simulation;
  nodes : list nref;
  links : list lref
}.

Definition with_simulation (f : Simulation → Simulation) (e : PhysicsEngine)
  : PhysicsEngine :=
  {| simulation := f (simulation e); nodes := nodes e; links := links e |}.

(** [new PhysicsEngine()] *)
Definition newEngine : PhysicsEngine :=
  {| simulation := {| simNodes := []; simLinks := []; alpha := 1;
                      running := true |};
     nodes := []; links := [] |}.

(** One step of the simulation's timer. *)
Definition tick (e : PhysicsEngine) : PhysicsEngine :=
  with_simulation sim_step e.

(** [stop() { this.simulation.stop() }] *)
Definition stop (e : PhysicsEngine) : PhysicsEngine :=
  with_simulation sim_stop e.

(** [restart() { this.simulation.restart() }] *)
Definition restart (e : PhysicsEngine) : PhysicsEngine :=
  with_simulation sim_restart e.

(** The closure handed to [setTimeout] by [centerNode]: it holds the node
    object itself, not its id. *)
Inductive Callback :=
  | Unpin (node : nref).

Record Timer := mkTimer {
  due : nat;
  callback : Callback
}.

(** The engine together with the heap its node array points into, a clock in
    milliseconds and the pending timers, oldest first. *)
Record World := mkWorld {
  heap : Heap;
  engine : PhysicsEngine;
  clock : nat;
  timers : list Timer
}.

Definition set_pins (px py : Pin) (n : Node) : Node :=
  {| id := id n; title := title n; summary := summary n; domain := domain n;
     type := type n; first_author := first_author n;
     author_count := author_count n; year := year n;
     key_contributions := key_contributions n; methodology := methodology n;
     x := x n; y := y n; fx := px; fy := py; vx := vx n; vy := vy n |}.

(** [node.fx = px; node.fy = py] on the object behind [r]. *)
Definition write_pins (r : nref) (px py : Pin) (h : Heap) : Heap :=
  {| nodeObjs := alter (set_pins px py) r (nodeObjs h);
     linkObjs := linkObjs h |}.

(** [n => n.id === nodeId] *)
Definition hasId (h : Heap) (nodeId : string) (r : nref) : bool :=
  match nodeObjs h !! r with
  | Some n => String.eqb (id n) nodeId
  | None => false
  end.

Definition unpinDelay : nat := 1000.

Definition centerNode (nodeId : string) (w : World) : World :=
  match List.find (hasId (heap w) nodeId) (nodes (engine w)) with
  | Some node =>
      {| heap := write_pins node (PinAt (Num 0)) (PinAt (Num 0)) (heap w);
         engine := with_simulation (λ s, sim_restart (sim_alpha (3 # 10) s))
                     (engine w);
         clock := clock w;
         timers := timers w ++ [ {| due := clock w + unpinDelay;
                                    callback := Unpin node |} ] |}
  | None => w
  end.

Definition run_callback (c : Callback) (h : Heap) : Heap :=
  match c with
  | Unpin node => write_pins node PinNull PinNull h
  end.

(** Fire, oldest first, the timers that are due at time [t]; keep the rest. *)
Fixpoint fire (t : nat) (ts : list Timer) (h : Heap) : Heap * list Timer :=
  match ts with
  | [] => (h, [])
  | tm :: rest =>
      if (due tm <=? t)%nat
      then fire t rest (run_callback (callback tm) h)
      else let '(h', rest') := fire t rest h in (h', tm :: rest')
  end.

(** Let [dt] milliseconds pass with no other event. *)
Definition advance (dt : nat) (w : World) : World :=
  let t := (clock w + dt)%nat in
  let '(h, ts) := fire t (timers w) (heap w) in
  {| heap := h; engine := engine w; clock := t; timers := ts |}.

(** The pin fields [(fx, fy)] of the object behind [r]. *)
Definition pinsIn (h : Heap) (r : nref) : option (Pin * Pin) :=
  match nodeObjs h !! r with
  | Some n => Some (fx n, fy n)
  | None => None
  end.

Definition pins (w : World) (r : nref) : option (Pin * Pin) :=
  pinsIn (heap w) r.

End Physics.

(** ** The canvas: [components/GraphCanvas.tsx] *)

Module Canvas.
Import Store.

Record View := mkView {
  k : num;
  tx : num;
  ty : num
}.

Record Dimensions := mkDims {
  width : num;
  height : num
}.

(** [canvas.getBoundingClientRect()] *)
Record DOMRect := mkRect {
  left : num;
  top : num
}.

Record Point := mkPoint {
  px : num;
  py : num
}.

Definition initialView : View := {| k := Num 1; tx := Num 0; ty := Num 0 |}.
Definition initialDimensions : Dimensions :=
  {| width := Num 800; height := Num 600 |}.

(** [0.6 + 0.4 * Math.max(0.5, Math.min(2, k))] *)
Definition zoomScaling (k : num) : num :=
  (Num 0.6 + Num 0.4 * max (Num 0.5) (min (Num 2) k))%js.

(** [let radius = 8; if today 15 else if center 20] *)
Definition baseRadius (t : NodeType) : num :=
  match t with
  | today => Num 15
  | center => Num 20
  | _ => Num 8
  end.

(** [node.x || 0] *)
Definition orZero (v : option num) : num :=
  match v with
  | Some a => if truthy a then a else Num 0
  | None => Num 0
  end.

(** *** The render pass, node geometry *)

(** [radiusScaled] of [render]: the radius the node's disc is drawn with. *)
Definition radiusScaled (node : Node) (k : num) : num :=
  let radius := baseRadius (type node) in
  let radius :=
    match author_count node with
    | Some c => if truthy c then (radius + min (c * Num 0.5) (Num 8))%js
                else radius
    | None => radius
    end in
  (radius * zoomScaling k)%js.

(** Where [render] draws the node: [None] when it is skipped. *)
Definition screenPos (dims : Dimensions) (v : View) (node : Node)
  : option Point :=
  match x node, y node with
  | Some _, Some _ =>
      let centerX := (width dims / Num 2)%js in
      let centerY := (height dims / Num 2)%js in
      Some {| px := (centerX + tx v + orZero (x node) * k v)%js;
              py := (centerY + ty v + orZero (y node) * k v)%js |}
  | _, _ => None
  end.

(** *** The hit test *)

(** The callback of [graphData.nodes.find] in [getNodeAt]. *)
Definition hits (dims : Dimensions) (v : View) (p : Point) (node : Node)
  : bool :=
  match x node, y node with
  | Some node_x, Some node_y =>
      let centerX := (width dims / Num 2)%js in
      let centerY := (height dims / Num 2)%js in
      let nx := (centerX + tx v + node_x * k v)%js in
      let ny := (centerY + ty v + node_y * k v)%js in
      let baseR := baseRadius (type node) in
      let r := (baseR * zoomScaling (k v))%js in
      let dx := (px p - nx)%js in
      let dy := (py p - ny)%js in
      (sqrt (dx * dx + dy * dy) <? r + Num 5)%js
  | _, _ => false
  end.

Definition hitsRef (h : Heap) (dims : Dimensions) (v : View) (p : Point)
  (r : nref) : bool :=
  match nodeObjs h !! r with
  | Some node => hits dims v p node
  | None => false
  end.

(** What the handlers read: the objects, the node array of the store, the
    canvas size and its place in the window. *)
Record Scene := mkScene {
  heap : Heap;
  graphNodes : list nref;
  dimensions : Dimensions;
  rect : DOMRect
}.

Definition getNodeAt (sc : Scene) (v : View) (clientX clientY : num)
  : option nref :=
  let p := {| px := (clientX - left (rect sc))%js;
              py := (clientY - top (rect sc))%js |} in
  List.find (hitsRef (heap sc) (dimensions sc) v p) (graphNodes sc).

(** *** Gestures *)

Record WheelEvent := mkWheel {
  w_clientX : num;
  w_clientY : num;
  deltaX : num;
  deltaY : num;
  ctrlKey : bool
}.

Record Touch := mkTouch {
  identifier : nat;
  clientX : num;
  clientY : num
}.

Record MouseEvent := mkMouse {
  m_clientX : num;
  m_clientY : num;
  button : nat
}.

(** The callback waiting for the next animation frame ([rafIdRef]). *)
Inductive FrameCallback :=
  | WheelFrame (e : WheelEvent)
  | TouchFrame (touches : list Touch).

(** The refs of the component that the gesture handlers read and write,
    with the physics engine they pause and resume. *)
Record Refs := mkRefs {
  view : View;
  isPanning : bool;
  isInteracting : bool;
  lastPos : Point;
  touchesRef : gmap nat Point;
  lastPinchDistance : num;
  pendingWheelDelta : num;
  raf : option FrameCallback;
  wheelTimeout : bool;
  physics : Physics.PhysicsEngine
}.

Definition initialRefs (e : Physics.PhysicsEngine) : Refs :=
  {| view := initialView; isPanning := false; isInteracting := false;
     lastPos := {| px := Num 0; py := Num 0 |}; touchesRef := ∅;
     lastPinchDistance := Num 0; pendingWheelDelta := Num 0;
     raf := None; wheelTimeout := false; physics := e |}.

Definition set_view (v : View) (g : Refs) : Refs :=
  {| view := v; isPanning := isPanning g; isInteracting := isInteracting g;
     lastPos := lastPos g; touchesRef := touchesRef g;
     lastPinchDistance := lastPinchDistance g;
     pendingWheelDelta := pendingWheelDelta g; raf := raf g;
     wheelTimeout := wheelTimeout g; physics := physics g |}.

Definition set_isPanning (b : bool) (g : Refs) : Refs :=
  {| view := view g; isPanning := b; isInteracting := isInteracting g;
     lastPos := lastPos g; touchesRef := touchesRef g;
     lastPinchDistance := lastPinchDistance g;
     pendingWheelDelta := pendingWheelDelta g; raf := raf g;
     wheelTimeout := wheelTimeout g; physics := physics g |}.

Definition set_isInteracting (b : bool) (g : Refs) : Refs :=
  {| view := view g; isPanning := isPanning g; isInteracting := b;
     lastPos := lastPos g; touchesRef := touchesRef g;
     lastPinchDistance := lastPinchDistance g;
     pendingWheelDelta := pendingWheelDelta g; raf := raf g;
     wheelTimeout := wheelTimeout g; physics := physics g |}.

Definition set_lastPos (p : Point) (g : Refs) : Refs :=
  {| view := view g; isPanning := isPanning g;
     isInteracting := isInteracting g;
     lastPos := p; touchesRef := touchesRef g;
     lastPinchDistance := lastPinchDistance g;
     pendingWheelDelta := pendingWheelDelta g; raf := raf g;
     wheelTimeout := wheelTimeout g; physics := physics g |}.

Definition set_touchesRef (m : gmap nat Point) (g : Refs) : Refs :=
  {| view := view g; isPanning := isPanning g;
     isInteracting := isInteracting g;
     lastPos := lastPos g; touchesRef := m;
     lastPinchDistance := lastPinchDistance g;
     pendingWheelDelta := pendingWheelDelta g; raf := raf g;
     wheelTimeout := wheelTimeout g; physics := physics g |}.

Definition set_lastPinchDistance (d : num) (g : Refs) : Refs :=
  {| view := view g; isPanning := isPanning g;
     isInteracting := isInteracting g;
     lastPos := lastPos g; touchesRef := touchesRef g;
     lastPinchDistance := d;
     pendingWheelDelta := pendingWheelDelta g; raf := raf g;
     wheelTimeout := wheelTimeout g; physics := physics g |}.

Definition set_pendingWheelDelta (d : num) (g : Refs) : Refs :=
  {| view := view g; isPanning := isPanning g;
     isInteracting := isInteracting g;
     lastPos := lastPos g; touchesRef := touchesRef g;
     lastPinchDistance := lastPinchDistance g;
     pendingWheelDelta := d; raf := raf g;
     wheelTimeout := wheelTimeout g; physics := physics g |}.

Definition set_raf (c : option FrameCallback) (g : Refs) : Refs :=
  {| view := view g; isPanning := isPanning g;
     isInteracting := isInteracting g;
     lastPos := lastPos g; touchesRef := touchesRef g;
     lastPinchDistance := lastPinchDistance g;
     pendingWheelDelta := pendingWheelDelta g; raf := c;
     wheelTimeout := wheelTimeout g; physics := physics g |}.

Definition set_wheelTimeout (b : bool) (g : Refs) : Refs :=
  {| view := view g; isPanning := isPanning g;
     isInteracting := isInteracting g;
     lastPos := lastPos g; touchesRef := touchesRef g;
     lastPinchDistance := lastPinchDistance g;
     pendingWheelDelta := pendingWheelDelta g; raf := raf g;
     wheelTimeout := b; physics := physics g |}.

Definition set_physics (e : Physics.PhysicsEngine) (g : Refs) : Refs :=
  {| view := view g; isPanning := isPanning g;
     isInteracting := isInteracting g;
     lastPos := lastPos g; touchesRef := touchesRef g;
     lastPinchDistance := lastPinchDistance g;
     pendingWheelDelta := pendingWheelDelta g; raf := raf g;
     wheelTimeout := wheelTimeout g; physics := e |}.

(** [Math.sqrt((t1.clientX - t2.clientX) ** 2 + (t1.clientY - t2.clientY) ** 2)] *)
Definition touchDistance (t1 t2 : Touch) : num :=
  let ddx := (clientX t1 - clientX t2)%js in
  let ddy := (clientY t1 - clientY t2)%js in
  sqrt (ddx * ddx + ddy * ddy)%js.

Section Handlers.

(** [Math.exp] is left to the runtime. *)
Variable exp : num → num.
(** The scene at the time of the event. *)
Variable sc : Scene.

(** The callback [handleWheel] hands to [requestAnimationFrame]. *)
Definition wheelFrame (e : WheelEvent) (g : Refs) : Refs :=
  let px := (w_clientX e - left (rect sc) - width (dimensions sc) / Num 2)%js in
  let py := (w_clientY e - top (rect sc) - height (dimensions sc) / Num 2)%js in
  let isTouchpadPinch := ctrlKey e || (abs (deltaX e) >? Num 0)%js in
  let factor :=
    if isTouchpadPinch
    then exp (- pendingWheelDelta g * Num 0.01)%js
    else exp (- pendingWheelDelta g * Num 0.002)%js in
  let currentView := view g in
  let newK := max (Num 0.3) (min (Num 5) (k currentView * factor)%js) in
  let scale := (newK / k currentView)%js in
  let newTx := (tx currentView + px * (Num 1 - scale))%js in
  let newTy := (ty currentView + py * (Num 1 - scale))%js in
  set_pendingWheelDelta (Num 0)
    (set_view {| k := newK; tx := newTx; ty := newTy |} g).

(** The callback [handleTouchMove] hands to [requestAnimationFrame]. *)
Definition touchFrame (touches : list Touch) (g : Refs) : Refs :=
  match touches with
  | [t1; t2] =>
      let distance := touchDistance t1 t2 in
      let centerX := ((clientX t1 + clientX t2) / Num 2)%js in
      let centerY := ((clientY t1 + clientY t2) / Num 2)%js in
      let px := (centerX - left (rect sc) - width (dimensions sc) / Num 2)%js in
      let py := (centerY - top (rect sc) - height (dimensions sc) / Num 2)%js in
      let factor := (distance / lastPinchDistance g)%js in
      let currentView := view g in
      let newK := max (Num 0.3) (min (Num 5) (k currentView * factor)%js) in
      let scale := (newK / k currentView)%js in
      let newTx := (tx currentView + px * (Num 1 - scale))%js in
      let newTy := (ty currentView + py * (Num 1 - scale))%js in
      set_lastPinchDistance distance
        (set_view {| k := newK; tx := newTx; ty := newTy |} g)
  | [t] =>
      if isPanning g then
        let dx := (clientX t - px (lastPos g))%js in
        let dy := (clientY t - py (lastPos g))%js in
        set_view {| k := k (view g); tx := (tx (view g) + dx)%js;
                    ty := (ty (view g) + dy)%js |}
          (set_lastPos {| px := clientX t; py := clientY t |} g)
      else g
  | _ => g
  end.

(** [handleWheel], up to the scheduling of its frame and of its timeout. *)
Definition handleWheel (e : WheelEvent) (g : Refs) : Refs :=
  let g := set_pendingWheelDelta (pendingWheelDelta g + deltaY e)%js g in
  let g :=
    if negb (isInteracting g)
    then set_physics (Physics.stop (physics g)) (set_isInteracting true g)
    else g in
  set_wheelTimeout true (set_raf (Some (WheelFrame e)) g).

(** The timeout of [handleWheel], 150 ms after the last wheel event. *)
Definition wheelTimeoutFires (g : Refs) : Refs :=
  if wheelTimeout g
  then set_physics (Physics.restart (physics g))
         (set_isInteracting false (set_wheelTimeout false g))
  else g.

(** The browser runs the pending animation-frame callback. *)
Definition animationFrame (g : Refs) : Refs :=
  match raf g with
  | Some (WheelFrame e) => wheelFrame e (set_raf None g)
  | Some (TouchFrame touches) => touchFrame touches (set_raf None g)
  | None => g
  end.

Definition handleMouseDown (e : MouseEvent) (g : Refs) : Refs :=
  if negb (button e =? 0)%nat then g
  else
    match getNodeAt sc (view g) (m_clientX e) (m_clientY e) with
    | Some _ => g
    | None =>
        set_physics (Physics.stop (physics g))
          (set_lastPos {| px := m_clientX e; py := m_clientY e |}
             (set_isInteracting true (set_isPanning true g)))
    end.

(** [handleMouseMove] while panning; outside a pan it only updates the hover
    state, which is no part of [Refs]. *)
Definition handleMouseMove (e : MouseEvent) (g : Refs) : Refs :=
  if isPanning g then
    let dx := (m_clientX e - px (lastPos g))%js in
    let dy := (m_clientY e - py (lastPos g))%js in
    set_view {| k := k (view g); tx := (tx (view g) + dx)%js;
                ty := (ty (view g) + dy)%js |}
      (set_lastPos {| px := m_clientX e; py := m_clientY e |} g)
  else g.

Definition handleMouseUp (g : Refs) : Refs :=
  if isPanning g
  then set_physics (Physics.restart (physics g))
         (set_isInteracting false (set_isPanning false g))
  else g.

Definition recordTouches (touches : list Touch) (m : gmap nat Point)
  : gmap nat Point :=
  foldl (λ m t, <[identifier t := {| px := clientX t; py := clientY t |}]> m)
        m touches.

Definition handleTouchStart (touches : list Touch) (g : Refs) : Refs :=
  let g := set_touchesRef (recordTouches touches (touchesRef g)) g in
  match touches with
  | [t1; t2] =>
      let distance := touchDistance t1 t2 in
      set_physics (Physics.stop (physics g))
        (set_isInteracting true (set_lastPinchDistance distance g))
  | [t] =>
      match getNodeAt sc (view g) (clientX t) (clientY t) with
      | Some _ => g
      | None =>
          set_physics (Physics.stop (physics g))
            (set_lastPos {| px := clientX t; py := clientY t |}
               (set_isInteracting true (set_isPanning true g)))
      end
  | _ => g
  end.

Definition handleTouchMove (touches : list Touch) (g : Refs) : Refs :=
  set_raf (Some (TouchFrame touches)) g.

(** [remaining] is [e.touches], [changed] is [e.changedTouches]. *)
Definition handleTouchEnd (remaining changed : list Touch) (g : Refs) : Refs :=
  let g :=
    set_touchesRef
      (foldl (λ m t, delete (identifier t) m) (touchesRef g) changed) g in
  match remaining with
  | [] =>
      set_physics (Physics.restart (physics g))
        (set_isInteracting false (set_isPanning false g))
  | [_] =>
      if (size (touchesRef g) =? 2)%nat
      then set_lastPinchDistance (Num 0) g
      else g
  | _ => g
  end.

(** The cleanup of the render effect, run when the graph, the size, the
    hovered or the selected node changes: it cancels the pending frame and
    the pending timeout. *)
Definition effectCleanup (g : Refs) : Refs :=
  set_wheelTimeout false (set_raf None g).

End Handlers.

(** What can happen to the canvas. *)
Inductive Event :=
  | Wheel (e : WheelEvent)
  | WheelTimeout
  | AnimationFrame
  | MouseDown (e : MouseEvent)
  | MouseMove (e : MouseEvent)
  | MouseUp
  | TouchStart (touches : list Touch)
  | TouchMove (touches : list Touch)
  | TouchEnd (remaining changed : list Touch)
  | EffectCleanup.

Definition step (exp : num → num) (sc : Scene) (ev : Event) (g : Refs) : Refs :=
  match ev with
  | Wheel e => handleWheel e g
  | WheelTimeout => wheelTimeoutFires g
  | AnimationFrame => animationFrame exp sc g
  | MouseDown e => handleMouseDown sc e g
  | MouseMove e => handleMouseMove e g
  | MouseUp => handleMouseUp g
  | TouchStart touches => handleTouchStart sc touches g
  | TouchMove touches => handleTouchMove touches g
  | TouchEnd remaining changed => handleTouchEnd remaining changed g
  | EffectCleanup => effectCleanup g
  end.

(** Run a sequence of events, each against the scene of its time. *)
Fixpoint run (exp : num → num) (evs : list (Scene * Event)) (g : Refs) : Refs :=
  match evs with
  | [] => g
  | (sc, ev) :: rest => run exp rest (step exp sc ev g)
  end.

(** The world coordinate drawn at offset [p] from the canvas center:
    the inverse of [screen = center + translate + world * scale]. *)
Definition worldAt (v : View) (p : Point) : Point :=
  {| px := ((px p - tx v) / k v)%js; py := ((py p - ty v) / k v)%js |}.

(** *** Click and expansion *)

(** The component state the click handler works on: the physics world (heap,
    engine, timers), the store, and the expand requests awaiting a response. *)
Record App := mkApp {
  world : Physics.World;
  store : State;
  currentView : View;
  inflight : list string
}.

Definition set_selection (nodeId : string) (target : num * num) (s : State)
  : State :=
  {| uiState := uiState s; graphData := graphData s;
     selectedPaper := Some nodeId; paperDetail := paperDetail s;
     insight := insight s;
     isGeneratingInsight := isGeneratingInsight s;
     isLoadingGraph := isLoadingGraph s;
     isExpandingNode := isExpandingNode s;
     expandingNodeId := expandingNodeId s;
     hoveredNode := hoveredNode s; cameraTarget := Some target |}.

(** [setIsExpandingNode(b); setExpandingNodeId(n)] *)
Definition set_expanding (b : bool) (n : option string) (s : State) : State :=
  {| uiState := uiState s; graphData := graphData s;
     selectedPaper := selectedPaper s; paperDetail := paperDetail s;
     insight := insight s;
     isGeneratingInsight := isGeneratingInsight s;
     isLoadingGraph := isLoadingGraph s;
     isExpandingNode := b;
     expandingNodeId := n;
     hoveredNode := hoveredNode s; cameraTarget := cameraTarget s |}.

Definition sceneOf (dims : Dimensions) (r : DOMRect) (a : App) : Scene :=
  {| heap := Physics.heap (world a);
     graphNodes := nodes (graphData (store a));
     dimensions := dims; rect := r |}.

(** [handleClick] up to its [await]: the handler reads [isExpandingNode] of
    the latest render, which React has brought up to date with the store
    before the next click is dispatched. *)
Definition handleClick (dims : Dimensions) (r : DOMRect) (clientX clientY : num)
  (a : App) : App :=
  match getNodeAt (sceneOf dims r a) (currentView a) clientX clientY with
  | Some node =>
      if negb (isExpandingNode (store a)) then
        match nodeObjs (Physics.heap (world a)) !! node with
        | Some n =>
            let s := set_selection (id n) (orZero (x n), orZero (y n)) (store a) in
            let w := Physics.centerNode (id n) (world a) in
            let s := set_expanding true (Some (id n)) s in
            {| world := w; store := s; currentView := currentView a;
               inflight := inflight a ++ [id n] |}
        | None => a
        end
      else a
  | None => a
  end.

Definition with_heap (h : Heap) (w : Physics.World) : Physics.World :=
  {| Physics.heap := h; Physics.engine := Physics.engine w;
     Physics.clock := Physics.clock w; Physics.timers := Physics.timers w |}.

(** The objects of a parsed response are new: they never replace an object
    that is already there. *)
Definition allocate (objs h : Heap) : Heap :=
  {| nodeObjs := nodeObjs h ∪ nodeObjs objs;
     linkObjs := linkObjs h ∪ linkObjs objs |}.

(** The rest of [handleClick] when the [i]-th pending request succeeds with
    [data], whose objects are [objs]: [addGraphData], then the [finally]. *)
Definition expandResolved (i : nat) (objs : Heap) (data : GraphData) (a : App)
  : App :=
  match inflight a !! i with
  | Some _ =>
      let h := allocate objs (Physics.heap (world a)) in
      let '(h, s) := addGraphData data (h, store a) in
      {| world := with_heap h (world a);
         store := set_expanding false None s;
         currentView := currentView a;
         inflight := delete i (inflight a) |}
  | None => a
  end.

(** The rest of [handleClick] when the request fails: [catch], [finally]. *)
Definition expandRejected (i : nat) (a : App) : App :=
  match inflight a !! i with
  | Some _ =>
      {| world := world a;
         store := set_expanding false None (store a);
         currentView := currentView a;
         inflight := delete i (inflight a) |}
  | None => a
  end.

Inductive AppEvent :=
  | Click (dims : Dimensions) (r : DOMRect) (clientX clientY : num)
  | Resolved (i : nat) (objs : Heap) (data : GraphData)
  | Rejected (i : nat)
  (** ticks of the simulation, hover, pan, zoom, the other components: the
      node objects, the clock, the timers, the view and the store change,
      the two expansion fields of the store do not *)
  | Elsewhere (w : Physics.World) (v : View) (s : State).

Definition appStep (ev : AppEvent) (a : App) : App :=
  match ev with
  | Click dims r cx cy => handleClick dims r cx cy a
  | Resolved i objs data => expandResolved i objs data a
  | Rejected i => expandRejected i a
  | Elsewhere w v s =>
      {| world := w;
         store := set_expanding (isExpandingNode (store a))
                    (expandingNodeId (store a)) s;
         currentView := v;
         inflight := inflight a |}
  end.

Definition initialApp (w : Physics.World) (g : GraphData) : App :=
  {| world := w; store := set_graphData g initialState;
     currentView := initialView; inflight := [] |}.

Inductive reachable : App → Prop :=
  | reach_init w g : reachable (initialApp w g)
  | reach_step ev a : reachable a → reachable (appStep ev a).

End Canvas.

Local Close Scope Q_scope.

(** ** Concrete graphs, scenes and worlds *)

Module Examples.
Import Store.

Definition bareNode (i : string) (t : NodeType) : Node :=
  {| id := i; title := None; summary := None; domain := None; type := t;
     first_author := None; author_count := None; year := None;
     key_contributions := None; methodology := None;
     x := None; y := None; fx := PinUndefined; fy := PinUndefined;
     vx := None; vy := None |}.

(** A node the simulation has placed at [(px, py)]. *)
Definition placedNode (i : string) (t : NodeType) (authors : option num)
  (px py : Q) : Node :=
  {| id := i; title := None; summary := None; domain := None; type := t;
     first_author := None; author_count := authors; year := None;
     key_contributions := None; methodology := None;
     x := Some (Num px); y := Some (Num py);
     fx := PinUndefined; fy := PinUndefined;
     vx := Some (Num 0); vy := Some (Num 0) |}.

Definition titled (t : string) (n : Node) : Node :=
  {| id := id n; title := Some t; summary := summary n; domain := domain n;
     type := type n; first_author := first_author n;
     author_count := author_count n; year := year n;
     key_contributions := key_contributions n; methodology := methodology n;
     x := x n; y := y n; fx := fx n; fy := fy n; vx := vx n; vy := vy n |}.

(** The scenario of the specification.  Objects 0 and 1 are the existing
    nodes A and B, already placed, and link 0 is A→B with its endpoints
    resolved to the node objects; objects 2 and 3 are the B and C of the
    response, links 1 and 2 its A→B and A→C, endpoints still raw ids. *)
Definition scenarioHeap : Heap :=
  {| nodeObjs :=
       <[0%nat := placedNode "A" today None 0 0]>
       (<[1%nat := placedNode "B" cited None 100 0]>
       (<[2%nat := titled "another B" (bareNode "B" expanded)]>
       (<[3%nat := bareNode "C" expanded]> ∅)));
     linkObjs :=
       <[0%nat := {| source := ENode 0; target := ENode 1; ltype := CITES |}]>
       (<[1%nat := {| source := EId "A"; target := EId "B"; ltype := CITES |}]>
       (<[2%nat := {| source := EId "A"; target := EId "C"; ltype := CITES |}]>
        ∅)) |}.

Definition scenarioExisting : GraphData :=
  {| nodes := [0; 1]%nat; links := [0%nat] |}.
Definition scenarioIncoming : GraphData :=
  {| nodes := [2; 3]%nat; links := [2%nat] |}.
(** The same response, repeating the link A→B. *)
Definition scenarioIncoming' : GraphData :=
  {| nodes := [2; 3]%nat; links := [1; 2]%nat |}.

(** Ids with a hyphen: the existing link is ["a-b" → "c"], the incoming one
    is ["a" → "b-c"]. *)
Definition hyphenHeap : Heap :=
  {| nodeObjs :=
       <[0%nat := bareNode "a-b" today]>
       (<[1%nat := bareNode "c" cited]>
       (<[2%nat := bareNode "a" expanded]>
       (<[3%nat := bareNode "b-c" expanded]> ∅)));
     linkObjs :=
       <[0%nat := {| source := EId "a-b"; target := EId "c"; ltype := CITES |}]>
       (<[1%nat := {| source := EId "a"; target := EId "b-c"; ltype := CITES |}]>
        ∅) |}.

Definition hyphenExisting : GraphData :=
  {| nodes := [0; 1]%nat; links := [0%nat] |}.
Definition hyphenIncoming : GraphData :=
  {| nodes := [2; 3]%nat; links := [1%nat] |}.

(** A response whose link A→Z names a node that is nowhere. *)
Definition danglingHeap : Heap :=
  {| nodeObjs :=
       <[0%nat := bareNode "A" today]>
       (<[1%nat := bareNode "B" cited]>
       (<[2%nat := bareNode "C" expanded]> ∅));
     linkObjs :=
       <[0%nat := {| source := EId "A"; target := EId "B"; ltype := CITES |}]>
       (<[1%nat := {| source := EId "A"; target := EId "Z"; ltype := CITES |}]>
        ∅) |}.

Definition danglingExisting : GraphData :=
  {| nodes := [0; 1]%nat; links := [0%nat] |}.
Definition danglingIncoming : GraphData :=
  {| nodes := [2%nat]; links := [1%nat] |}.

(** An engine whose simulation has run 100 steps: [alpha] is [0.98 ^ 100],
    about 0.13. *)
Definition cooledEngine : Physics.PhysicsEngine :=
  Nat.iter 100 Physics.tick Physics.newEngine.

(** Nodes A and B laid out, bound to an engine, nothing pending. *)
Definition twoNodeHeap : Heap :=
  {| nodeObjs :=
       <[0%nat := placedNode "A" today None 0 0]>
       (<[1%nat := placedNode "B" cited None 100 0]> ∅);
     linkObjs :=
       <[0%nat := {| source := ENode 0; target := ENode 1; ltype := CITES |}]>
       ∅ |}.

Definition twoNodeWorld : Physics.World :=
  {| Physics.heap := twoNodeHeap;
     Physics.engine :=
       {| Physics.simulation :=
            {| Physics.simNodes := [0; 1]; Physics.simLinks := [0];
               Physics.alpha := 0.5; Physics.running := true |};
          Physics.nodes := [0; 1]; Physics.links := [0] |};
     Physics.clock := 0;
     Physics.timers := [] |}.

Definition windowRect : Canvas.DOMRect :=
  {| Canvas.left := Num 0; Canvas.top := Num 0 |}.

(** An 800 x 600 canvas with no node. *)
Definition emptyScene : Canvas.Scene :=
  {| Canvas.heap := {| nodeObjs := ∅; linkObjs := ∅ |};
     Canvas.graphNodes := [];
     Canvas.dimensions := Canvas.initialDimensions;
     Canvas.rect := windowRect |}.

(** A cited paper with 16 authors, placed at the origin. *)
Definition manyAuthors : Node := placedNode "A" cited (Some (Num 16)) 0 0.

Definition manyAuthorsScene : Canvas.Scene :=
  {| Canvas.heap := {| nodeObjs := <[0 := manyAuthors]> ∅; linkObjs := ∅ |};
     Canvas.graphNodes := [0];
     Canvas.dimensions := Canvas.initialDimensions;
     Canvas.rect := windowRect |}.

(** Two fingers on the same spot. *)
Definition finger1 : Canvas.Touch :=
  {| Canvas.identifier := 0; Canvas.clientX := Num 100;
     Canvas.clientY := Num 100 |}.
Definition finger2 : Canvas.Touch :=
  {| Canvas.identifier := 1; Canvas.clientX := Num 100;
     Canvas.clientY := Num 100 |}.

Definition coincidentPinch : list (Canvas.Scene * Canvas.Event) :=
  [ (emptyScene, Canvas.TouchStart [finger1; finger2]);
    (emptyScene, Canvas.TouchMove [finger1; finger2]);
    (emptyScene, Canvas.AnimationFrame) ].

(** A drag of the empty canvas by 10 pixels to the right. *)
Definition panRight : list (Canvas.Scene * Canvas.Event) :=
  [ (emptyScene, Canvas.MouseDown
       {| Canvas.m_clientX := Num 200; Canvas.m_clientY := Num 200;
          Canvas.button := 0 |});
    (emptyScene, Canvas.MouseMove
       {| Canvas.m_clientX := Num 210; Canvas.m_clientY := Num 200;
          Canvas.button := 0 |});
    (emptyScene, Canvas.MouseUp) ].

(** The mouse wheel turned up by 2000 over the center of the canvas. *)
Definition wheelUp : Canvas.WheelEvent :=
  {| Canvas.w_clientX := Num 400; Canvas.w_clientY := Num 300;
     Canvas.deltaX := Num 0; Canvas.deltaY := Num (-2000);
     Canvas.ctrlKey := false |}.

Definition wheelZoom : list (Canvas.Scene * Canvas.Event) :=
  [ (emptyScene, Canvas.Wheel wheelUp);
    (emptyScene, Canvas.AnimationFrame) ].

(** A rational lower bound of the exponential, good enough to stand for
    [Math.exp] where only a lower bound matters. *)
Definition expLower (a : num) : num :=
  match a with
  | Num q => if Qle_bool 0 q then Num (1 + q + q * q / 2)
             else Num (1 / (1 - q + q * q / 2))
  | PInf => PInf
  | NInf => Num 0
  | NaN => NaN
  end.

Definition freshRefs : Canvas.Refs := Canvas.initialRefs Physics.newEngine.

(** The pointer over the center of the canvas. *)
Definition atCenter : Canvas.Point :=
  {| Canvas.px := Num 0; Canvas.py := Num 0 |}.

(** The app showing the two-node graph. *)
Definition twoNodeApp : Canvas.App :=
  Canvas.initialApp twoNodeWorld {| nodes := [0; 1]; links := [0] |}.

(** A click on A, at the center of the canvas; B is 100 pixels to the
    right. *)
Definition expandingA : Canvas.App :=
  Canvas.handleClick Canvas.initialDimensions windowRect (Num 400) (Num 300)
    twoNodeApp.

End Examples.

(** ** Vocabulary of the specification *)

Module Spec.
Import Store.

(** The ordered pair that identifies a link. *)
Definition linkPair (h : Heap) (l : lref) : string * string :=
  (linkSourceId h l, linkTargetId h l).

(** Both endpoints of [l] are ids of nodes of [g]. *)
Definition resolves (h : Heap) (g : GraphData) (l : lref) : Prop :=
  linkSourceId h l ∈ (nodeId h <$> nodes g) ∧
  linkTargetId h l ∈ (nodeId h <$> nodes g).

Definition noDangling (h : Heap) (g : GraphData) : Prop :=
  ∀ l, l ∈ links g → resolves h g l.

(** The distance on screen between the pointer [p] (relative to the canvas)
    and the place where the renderer draws the node. *)
Definition screenDistance (dims : Canvas.Dimensions) (v : Canvas.View)
  (p : Canvas.Point) (node : Node) : option num :=
  match Canvas.screenPos dims v node with
  | Some c =>
      let dx := (Canvas.px p - Canvas.px c)%js in
      let dy := (Canvas.py p - Canvas.py c)%js in
      Some (sqrt (dx * dx + dy * dy)%js)
  | None => None
  end.

(** The hit test of the specification: nearer than the radius the renderer
    draws the node with, plus the tolerance of 5. *)
Definition withinRenderRadius (dims : Canvas.Dimensions) (v : Canvas.View)
  (p : Canvas.Point) (node : Node) : bool :=
  match screenDistance dims v p node with
  | Some d => (d <? Canvas.radiusScaled node (Canvas.k v) + Num 5)%js
  | None => false
  end.

(** The translate update of the specification:
    [old_translate + pointer_offset * (1 - new_k / old_k)]. *)
Definition zoomTranslate (t p k_old k_new : num) : num :=
  (t + p * (Num 1 - k_new / k_old))%js.

(** The flags of the store agree with the requests in flight: no request
    and the flag down, or one request, the flag up and its id recorded. *)
Definition guardInv (a : Canvas.App) : Prop :=
  (isExpandingNode (Canvas.store a) = false ∧ Canvas.inflight a = []) ∨
  (isExpandingNode (Canvas.store a) = true ∧
   ∃ n, Canvas.inflight a = [n] ∧
        expandingNodeId (Canvas.store a) = Some n).

(** No ["-"] in the string. *)
Fixpoint hyphenFree (s : string) : bool :=
  match s with
  | EmptyString => true
  | String c s' => negb (Ascii.eqb c "-"%char) && hyphenFree s'
  end.

End Spec.

(** ** More of the engine, the renderer and the handlers *)

(** [PhysicsEngine.highlightConnections] *)
Module Highlight.
Import Store.

(** The body of the [forEach]: one link seen, the set so far. *)
Definition visit (h : Heap) (nodeId : string) (connectedIds : gset string)
  (link : lref) : gset string :=
  let sourceId := linkSourceId h link in
  let targetId := linkTargetId h link in
  let connectedIds :=
    if String.eqb sourceId nodeId then {[targetId]} ∪ connectedIds
    else connectedIds in
  if String.eqb targetId nodeId then {[sourceId]} ∪ connectedIds
  else connectedIds.

Definition highlightConnections (h : Heap) (e : Physics.PhysicsEngine)
  (nodeId : string) : gset string :=
  foldl (visit h nodeId) ∅ (Physics.links e).

End Highlight.

(** The draw pass [render] of [GraphCanvas], as the list of what it draws. *)
Module Render.
Import Store Canvas.

(** [isInteractingRef.current && !isPanningRef.current] *)
Definition isZooming (g : Refs) : bool :=
  isInteracting g && negb (isPanning g).

(** [isZooming || k < 0.5] *)
Definition skipDetails (g : Refs) : bool :=
  isZooming g || (k (view g) <? Num 0.5)%js.

(** The guard of the link loop: [!skipDetails || k > 0.8]. *)
Definition linksRendered (g : Refs) : bool :=
  negb (skipDetails g) || (k (view g) >? Num 0.8)%js.

(** An endpoint as the link loop resolves it: a raw id is looked up in the
    node array, a node object is taken as it is. *)
Definition endpointNode (h : Heap) (nodes : list nref) (e : Endpoint)
  : option Node :=
  match e with
  | EId s =>
      match List.find (Physics.hasId h s) nodes with
      | Some r => nodeObjs h !! r
      | None => None
      end
  | ENode r => nodeObjs h !! r
  end.

(** A stroked line: its ends, whether it has the gradient, its opacity. *)
Record Stroke := mkStroke {
  sourceX : num;
  sourceY : num;
  targetX : num;
  targetY : num;
  gradient : bool;
  globalAlpha : num
}.

(** [selectedPaper && (source.id === selectedPaper || target.id === selectedPaper)] *)
Definition touchesSelected (selectedPaper : option string) (s t : Node)
  : bool :=
  match selectedPaper with
  | Some p =>
      negb (String.eqb p EmptyString)
      && (String.eqb (id s) p || String.eqb (id t) p)
  | None => false
  end.

(** One turn of the link loop: [None] where it returns early. *)
Definition renderLink (sc : Scene) (selectedPaper : option string) (g : Refs)
  (link : Link) : option Stroke :=
  match endpointNode (heap sc) (graphNodes sc) (source link),
        endpointNode (heap sc) (graphNodes sc) (target link) with
  | Some s, Some t =>
      match x s, y s, x t, y t with
      | Some _, Some _, Some _, Some _ =>
          let centerX := (width (dimensions sc) / Num 2)%js in
          let centerY := (height (dimensions sc) / Num 2)%js in
          let v := view g in
          Some {| sourceX := (centerX + tx v + orZero (x s) * k v)%js;
                  sourceY := (centerY + ty v + orZero (y s) * k v)%js;
                  targetX := (centerX + tx v + orZero (x t) * k v)%js;
                  targetY := (centerY + ty v + orZero (y t) * k v)%js;
                  gradient := negb (isZooming g);
                  globalAlpha := if touchesSelected selectedPaper s t
                                 then Num 1 else Num 0.4 |}
      | _, _, _, _ => None
      end
  | _, _ => None
  end.

Definition renderLinkRef (sc : Scene) (selectedPaper : option string)
  (g : Refs) (l : lref) : option Stroke :=
  match linkObjs (heap sc) !! l with
  | Some link => renderLink sc selectedPaper g link
  | None => None
  end.

(** The strokes of one frame, in drawing order. *)
Definition renderLinks (sc : Scene) (links : list lref)
  (selectedPaper : option string) (g : Refs) : list Stroke :=
  if linksRendered g
  then omap (renderLinkRef sc selectedPaper g) links
  else [].

(** [title.length > 20 ? title.substring(0, 20) + '...' : title] *)
Definition nodeLabel (title : string) : string :=
  if (20 <? String.length title)%nat
  then (String.substring 0 20 title ++ "...")%string
  else title.

(** The title drawn under a node, if any:
    [!skipDetails && radiusScaled > 12 && node.title]. *)
Definition renderLabel (g : Refs) (node : Node) : option string :=
  match title node with
  | Some t =>
      if negb (skipDetails g)
         && (radiusScaled node (k (view g)) >? Num 12)%js
         && negb (String.eqb t EmptyString)
      then Some (nodeLabel t)
      else None
  | None => None
  end.

(** A node as drawn: where, how large, with which decorations. *)
Record Disc := mkDisc {
  centre : Point;
  radius : num;
  glow : bool;
  lineWidth : num;
  pulse : bool;
  label : option string
}.

(** One turn of the node loop: [None] for a node without position. *)
Definition renderNode (sc : Scene) (selectedPaper : option string) (g : Refs)
  (node : Node) : option Disc :=
  match screenPos (dimensions sc) (view g) node with
  | Some c =>
      Some {| centre := c;
              radius := radiusScaled node (k (view g));
              glow := negb (skipDetails g);
              lineWidth := if decide (Some (id node) = selectedPaper)
                           then Num 3 else Num 1;
              pulse := negb (skipDetails g)
                       && match type node with today => true | _ => false end;
              label := renderLabel g node |}
  | None => None
  end.

End Render.

(** The hover half of [handleMouseMove]. *)
Module Hover.
Import Store Canvas.

Inductive Cursor := pointer | default | grabbing.

(** What hovering reads and writes: the node objects, the store, the ref
    with the id of the node frozen by the last hover, the cursor. *)
Record HoverState := mkHover {
  objects : Heap;
  store : State;
  hoveredNodeIdRef : option string;
  cursor : Cursor
}.

Definition setHoveredNode (nodeId : option string) (s : State) : State :=
  {| uiState := uiState s; graphData := graphData s;
     selectedPaper := selectedPaper s; paperDetail := paperDetail s;
     insight := insight s;
     isGeneratingInsight := isGeneratingInsight s;
     isLoadingGraph := isLoadingGraph s;
     isExpandingNode := isExpandingNode s;
     expandingNodeId := expandingNodeId s;
     hoveredNode := nodeId; cameraTarget := cameraTarget s |}.

(** [node?.id || null] *)
Definition hoveredId (h : Heap) (node : option nref) : option string :=
  match node with
  | Some r =>
      match nodeObjs h !! r with
      | Some n => if String.eqb (id n) EmptyString then None else Some (id n)
      | None => None
      end
  | None => None
  end.

(** [x ?? null] *)
Definition orNull (v : option num) : Pin :=
  match v with
  | Some a => PinAt a
  | None => PinNull
  end.

(** Release the node the ref names, if the ref is set and the node is
    found. *)
Definition releasePrevious (nodes : list nref) (ref : option string)
  (h : Heap) : Heap :=
  match ref with
  | Some p =>
      if String.eqb p EmptyString then h
      else match List.find (Physics.hasId h p) nodes with
           | Some prev => Physics.write_pins prev PinNull PinNull h
           | None => h
           end
  | None => h
  end.

(** Freeze the node under the pointer where it is. *)
Definition freeze (node : option nref) (h : Heap) : Heap :=
  match node with
  | Some r =>
      match nodeObjs h !! r with
      | Some n => Physics.write_pins r (orNull (x n)) (orNull (y n)) h
      | None => h
      end
  | None => h
  end.

(** [handleMouseMove] outside a pan; the handler reads [hoveredNode] of the
    latest render. *)
Definition hover (dims : Dimensions) (r : DOMRect) (v : View)
  (e : MouseEvent) (w : HoverState) : HoverState :=
  let sc := {| heap := objects w;
               graphNodes := nodes (graphData (store w));
               dimensions := dims; rect := r |} in
  let node := getNodeAt sc v (m_clientX e) (m_clientY e) in
  let newHoveredId := hoveredId (objects w) node in
  if decide (newHoveredId = hoveredNode (store w)) then w
  else
    let h := releasePrevious (nodes (graphData (store w)))
               (hoveredNodeIdRef w) (objects w) in
    {| objects := freeze node h;
       store := setHoveredNode newHoveredId (store w);
       hoveredNodeIdRef := newHoveredId;
       cursor := match newHoveredId with
                 | Some _ => pointer
                 | None => default
                 end |}.

(** The whole of [handleMouseMove]: the pan of [Canvas.handleMouseMove] or
    the hover. *)
Definition handleMouseMove (dims : Dimensions) (r : DOMRect)
  (e : MouseEvent) (gw : Refs * HoverState) : Refs * HoverState :=
  let '(g, w) := gw in
  if isPanning g then (Canvas.handleMouseMove e g, w)
  else (g, hover dims r (view g) e w).

End Hover.

(** ** More vocabulary *)

Module Vocabulary.
Import Store Canvas.

(** A number that is neither NaN nor an infinity. *)
Definition finite (a : num) : Prop := ∃ q, a = Num q.

Definition finitePoint (p : Point) : Prop := finite (px p) ∧ finite (py p).

Definition finiteView (v : View) : Prop :=
  finite (k v) ∧ finite (tx v) ∧ finite (ty v).

Definition finiteScene (sc : Scene) : Prop :=
  finite (left (rect sc)) ∧ finite (top (rect sc)) ∧
  finite (width (dimensions sc)) ∧ finite (height (dimensions sc)).

Definition pointEquiv (p q : Point) : Prop :=
  (px p ≈ px q)%js ∧ (py p ≈ py q)%js.

Definition viewEquiv (v w : View) : Prop :=
  (k v ≈ k w)%js ∧ (tx v ≈ tx w)%js ∧ (ty v ≈ ty w)%js.

(** A pointer position relative to the center of the canvas, as the wheel
    and touch frames compute it. *)
Definition pointerOffset (sc : Scene) (clientX clientY : num) : Point :=
  {| px := (clientX - left (rect sc) - width (dimensions sc) / Num 2)%js;
     py := (clientY - top (rect sc) - height (dimensions sc) / Num 2)%js |}.

(** Wheel events, each with the scene of its time, as events of the
    canvas. *)
Definition wheelEvents (ws : list (Scene * WheelEvent))
  : list (Scene * Event) :=
  (λ we, (we.1, Wheel we.2)) <$> ws.

(** The deltas of wheel events added up in their order, from [d0] on. *)
Definition totalDeltaY (d0 : num) (ws : list (Scene * WheelEvent)) : num :=
  foldl (λ d we, (d + deltaY we.2)%js) d0 ws.

(** Any event but a touch move; a wheel event with a finite delta. *)
Definition wheelOrMouse (ev : Event) : Prop :=
  match ev with
  | Wheel e => finite (deltaY e)
  | TouchMove _ => False
  | _ => True
  end.

(** What is used of [Math.exp]: on a number or an infinity it returns
    neither NaN nor a negative value. *)
Definition expSane (exp : num → num) : Prop :=
  ∀ a, is_NaN a = false →
       is_NaN (exp a) = false ∧ (exp a <? Num 0)%js = false.

(** And it is over 1 right of zero, under 1 left of it. *)
Definition expSplitsAtOne (exp : num → num) : Prop :=
  (∀ q, (0 < q)%Q → (Num 1 <? exp (Num q))%js = true) ∧
  (∀ q, (q < 0)%Q → (exp (Num q) <? Num 1)%js = true
                     ∧ (exp (Num q) <? Num 0)%js = false).

(** An author count that adds to the radius or leaves it: absent, or not
    negative. *)
Definition authorsNotNegative (node : Node) : Prop :=
  match author_count node with
  | Some c => (c <? Num 0)%js = false
  | None => True
  end.

End Vocabulary.

(** ** More concrete inputs *)

Module MoreExamples.
Import Store Examples.

(** The heap of the scenario later on: node B has been pinned at the origin
    and the link A→C, object 2, has its endpoints resolved to the node
    objects 0 and 3. *)
Definition scenarioHeapLater : Heap :=
  {| nodeObjs := nodeObjs (Physics.write_pins 1 (PinAt (Num 0)) (PinAt (Num 0))
                             scenarioHeap);
     linkObjs :=
       <[2 := {| source := ENode 0; target := ENode 3; ltype := CITES |}]>
       (linkObjs scenarioHeap) |}.

(** The engine bound to the graph of the scenario before and after the
    merge of the response. *)
Definition engineOf (g : GraphData) : Physics.PhysicsEngine :=
  {| Physics.simulation :=
       {| Physics.simNodes := nodes g; Physics.simLinks := links g;
          Physics.alpha := 0.5; Physics.running := true |};
     Physics.nodes := nodes g; Physics.links := links g |}.

(** The refs once the left button is down on the empty canvas at
    (200, 200). *)
Definition grabbedRefs : Canvas.Refs :=
  Canvas.handleMouseDown emptyScene
    {| Canvas.m_clientX := Num 200; Canvas.m_clientY := Num 200;
       Canvas.button := 0 |} freshRefs.

Definition mouseAt (cx cy : Q) : Canvas.MouseEvent :=
  {| Canvas.m_clientX := Num cx; Canvas.m_clientY := Num cy;
     Canvas.button := 0 |}.

(** Three turns of the wheel before the next frame. *)
Definition wheelBurst : list (Canvas.Scene * Canvas.WheelEvent) :=
  [ (emptyScene, wheelUp);
    (emptyScene, {| Canvas.w_clientX := Num 100; Canvas.w_clientY := Num 50;
                    Canvas.deltaX := Num 0; Canvas.deltaY := Num 300;
                    Canvas.ctrlKey := false |}) ].

(** Two fingers 200 pixels apart, tracked since their touch start. *)
Definition leftFinger : Canvas.Touch :=
  {| Canvas.identifier := 0; Canvas.clientX := Num 300;
     Canvas.clientY := Num 300 |}.
Definition rightFinger : Canvas.Touch :=
  {| Canvas.identifier := 1; Canvas.clientX := Num 500;
     Canvas.clientY := Num 300 |}.

Definition pinchingRefs : Canvas.Refs :=
  Canvas.handleTouchStart emptyScene [leftFinger; rightFinger] freshRefs.

(** The same two fingers, both moved 40 pixels to the right and 25 down. *)
Definition leftFingerMoved : Canvas.Touch :=
  {| Canvas.identifier := 0; Canvas.clientX := Num 340;
     Canvas.clientY := Num 325 |}.
Definition rightFingerMoved : Canvas.Touch :=
  {| Canvas.identifier := 1; Canvas.clientX := Num 540;
     Canvas.clientY := Num 325 |}.

(** The graph of [danglingHeap] after the merge, laid out: A at the origin,
    B and C to its right; the link A→Z has no node Z. *)
Definition danglingScene : Canvas.Scene :=
  {| Canvas.heap :=
       {| nodeObjs :=
            <[0 := placedNode "A" today None 0 0]>
            (<[1 := placedNode "B" cited None 100 0]>
            (<[2 := placedNode "C" expanded None 200 0]> ∅));
          linkObjs := linkObjs danglingHeap |};
     Canvas.graphNodes := [0; 1; 2];
     Canvas.dimensions := Canvas.initialDimensions;
     Canvas.rect := windowRect |}.

(** Refs in the middle of a wheel zoom at scale 0.7. *)
Definition zoomingRefs : Canvas.Refs :=
  Canvas.set_view {| Canvas.k := Num 0.7; Canvas.tx := Num 0;
                     Canvas.ty := Num 0 |}
    (Canvas.handleWheel wheelUp freshRefs).

(** A paper of today with a long title. *)
Definition longTitled : Node :=
  titled "Attention Is All You Need, Again" (placedNode "T" today None 0 0).

(** The response to the expansion of A: a new node C, object 2, and the
    link A→C, object 1, with the objects themselves. *)
Definition responseObjects : Heap :=
  {| nodeObjs := <[2 := bareNode "C" expanded]> ∅;
     linkObjs :=
       <[1 := {| source := EId "A"; target := EId "C"; ltype := CITES |}]> ∅ |}.

Definition responseData : GraphData := {| nodes := [2]; links := [1] |}.

(** The two-node graph with nothing hovered. *)
Definition restingHover : Hover.HoverState :=
  {| Hover.objects := twoNodeHeap;
     Hover.store := set_graphData {| nodes := [0; 1]; links := [0] |}
                      initialState;
     Hover.hoveredNodeIdRef := None;
     Hover.cursor := Hover.default |}.

End MoreExamples.

(** * Properties *)

(** ** The merge *)

Section MergeProperties.
Import Store Spec Examples.

Lemma filter_none {A} (P : A → Prop) `{!∀ a, Decision (P a)} (l : list A) :
  (∀ a, a ∈ l → ¬ P a) → filter P l = [].
Proof.
  induction l as [|a l IH]; intros Hl; [reflexivity|].
  rewrite filter_cons_False.
  - apply IH. intros b Hb. apply Hl. by right.
  - apply Hl. by left.
Qed.

Lemma filter_agree {A} (P R : A → Prop)
    `{!∀ a, Decision (P a)} `{!∀ a, Decision (R a)} (l : list A) :
  (∀ a, a ∈ l → P a ↔ R a) → filter P l = filter R l.
Proof.
  induction l as [|a l IH]; intros Hl; [reflexivity|].
  rewrite !filter_cons.
  rewrite IH by (intros b Hb; apply Hl; by right).
  assert (Ha : P a ↔ R a) by (apply Hl; by left).
  repeat case_decide; tauto.
Qed.

(** The node list of a merge: the existing list, then the incoming nodes
    whose id is the id of no existing node, in their order. *)
Lemma merge_nodes h cur inc :
  nodes (merge h cur inc) =
  nodes cur ++ filter (λ n, nodeId h n ∉ (nodeId h <$> nodes cur)) (nodes inc).
Proof.
  unfold merge; simpl. f_equal.
  apply filter_agree. intros r _. by rewrite elem_of_list_to_set.
Qed.

(** The link list of a merge, in terms of the template-string keys. *)
Lemma merge_links h cur inc :
  links (merge h cur inc) =
  links cur ++ filter (λ l, linkKey h l ∉ (linkKey h <$> links cur)) (links inc).
Proof.
  unfold merge; simpl. f_equal.
  apply filter_agree. intros r _. by rewrite elem_of_list_to_set.
Qed.

(** On a collision the existing object stays and the incoming one is left
    out. *)
Lemma merge_existing_wins h cur inc r :
  nodeId h r ∈ (nodeId h <$> nodes cur) →
  r ∉ nodes cur → r ∉ nodes (merge h cur inc).
Proof.
  intros Hid Hr. rewrite merge_nodes, elem_of_app, list_elem_of_filter.
  tauto.
Qed.

End MergeProperties.

Section MergeTheorems.
Import Store Spec Examples.

(** The scenario of the specification: [{A,B}] with [A→B] merged with
    [{B,C}] and [A→C] is [{A,B,C}] with [A→B] and [A→C]; the B that stays is
    the existing object 1, not the incoming object 2. *)
Example scenario_merge :
  merge scenarioHeap scenarioExisting scenarioIncoming
  = {| nodes := [0; 1; 3]; links := [0; 2] |}.
Proof. vm_compute. reflexivity. Qed.

(** The same with a response that repeats [A→B]: the existing link has its
    endpoints resolved to node objects, the incoming one has raw ids, and the
    incoming one is recognised as a duplicate. *)
Example scenario_merge_no_duplicate :
  merge scenarioHeap scenarioExisting scenarioIncoming'
  = {| nodes := [0; 1; 3]; links := [0; 2] |}.
Proof. vm_compute. reflexivity. Qed.

Lemma hyphenFree_key_inj (s1 s2 t1 t2 : string) :
  hyphenFree s1 = true → hyphenFree s2 = true →
  (s1 ++ "-" ++ t1 = s2 ++ "-" ++ t2)%string → s1 = s2 ∧ t1 = t2.
Proof.
  unfold String.app. revert s2.
  induction s1 as [|c s1 IH]; intros [|d s2]; simpl.
  - intros _ _ [= ->]. done.
  - intros _ Hd [= <- _]. simpl in Hd. discriminate.
  - intros Hc _ [= -> _]. simpl in Hc. discriminate.
  - intros Hc Hd [= -> Heq].
    apply andb_true_iff in Hc as [_ Hc]. apply andb_true_iff in Hd as [_ Hd].
    destruct (IH s2 Hc Hd Heq) as [-> ->]. done.
Qed.

(** Where no source id has a hyphen, two links have the same key exactly
    when they have the same ordered pair of endpoints. *)
Lemma linkKey_pair h l1 l2 :
  hyphenFree (linkSourceId h l1) = true →
  hyphenFree (linkSourceId h l2) = true →
  linkKey h l1 = linkKey h l2 ↔ linkPair h l1 = linkPair h l2.
Proof.
  intros H1 H2. unfold linkKey, linkPair. split.
  - intros Hk. destruct (hyphenFree_key_inj _ _ _ _ H1 H2 Hk) as [-> ->]. done.
  - intros [= -> ->]. done.
Qed.

(** For such ids the merged links are the existing ones followed by the
    incoming links whose ordered pair is not an existing one. *)
Lemma merge_links_by_pair h cur inc :
  (∀ l, l ∈ links cur ++ links inc → hyphenFree (linkSourceId h l) = true) →
  links (merge h cur inc) =
  links cur ++ filter (λ l, linkPair h l ∉ (linkPair h <$> links cur)) (links inc).
Proof.
  intros Hfree. rewrite merge_links. f_equal.
  apply filter_agree. intros l Hl.
  assert (Hiff : linkKey h l ∈ (linkKey h <$> links cur)
                 ↔ linkPair h l ∈ (linkPair h <$> links cur)).
  { rewrite !list_elem_of_fmap. split; intros (l' & Heq & Hl'); exists l';
      (split; [|done]); apply (linkKey_pair h l l'); auto;
      apply Hfree, elem_of_app; auto. }
  tauto.
Qed.

(** C1. [addGraphData] appends the incoming links whose key
    [`${source}-${target}`] is new, and two different ordered pairs can have
    one key.  Existing link ["a-b" → "c"], incoming link ["a" → "b-c"]: the
    pair of the incoming link is not present, so a merge by ordered pairs
    keeps it; the nodes merge as the claim says; and yet the incoming link
    is left out of the merged graph. *)
Theorem merge_drops_link_on_key_collision :
  let merged := merge hyphenHeap hyphenExisting hyphenIncoming in
  linkPair hyphenHeap 1 = ("a", "b-c")%string ∧
  (linkPair hyphenHeap <$> links hyphenExisting) = [("a-b", "c")%string] ∧
  (linkPair hyphenHeap 1 ∉ (linkPair hyphenHeap <$> links hyphenExisting)) ∧
  filter (λ l, linkPair hyphenHeap l
               ∉ (linkPair hyphenHeap <$> links hyphenExisting))
         (links hyphenIncoming) = [1] ∧
  linkKey hyphenHeap 0 = linkKey hyphenHeap 1 ∧
  nodes merged = [0; 1; 2; 3] ∧
  links merged = [0].
Proof.
  repeat split; try (vm_compute; reflexivity).
  intros H. vm_compute in H. apply list_elem_of_singleton in H. discriminate.
Qed.

(** C2. Merging a graph into itself gives the graph back, also through the
    store; a merge never shortens the node list or the link list, and every
    entry of the current graph is an entry of the merged one. *)
Theorem merge_idempotent_and_monotone (h : Heap) (G cur inc : GraphData)
    (s : State) :
  merge h G G = G ∧
  addGraphData (graphData s) (h, s) = (h, s) ∧
  length (nodes cur) ≤ length (nodes (merge h cur inc)) ∧
  length (links cur) ≤ length (links (merge h cur inc)) ∧
  (∀ r, r ∈ nodes cur → r ∈ nodes (merge h cur inc)) ∧
  (∀ l, l ∈ links cur → l ∈ links (merge h cur inc)).
Proof.
  assert (Hidem : ∀ G', merge h G' G' = G').
  { intros [ns ls]. unfold merge; simpl.
    rewrite !filter_none, !app_nil_r; [done| |].
    - intros l Hl Hnot. apply Hnot, elem_of_list_to_set.
      by apply list_elem_of_fmap_2.
    - intros r Hr Hnot. apply Hnot, elem_of_list_to_set.
      by apply list_elem_of_fmap_2. }
  split; [apply Hidem|]. split.
  { unfold addGraphData. rewrite Hidem. by destruct s. }
  rewrite merge_nodes, merge_links, !length_app.
  repeat split; try lia; intros ? ?; apply elem_of_app; by left.
Qed.

(** C3, as the claim states it, fails: the existing graph [{A,B}] with [A→B]
    has no dangling link, the response brings node C and a link [A→Z], and
    the merged graph holds [A→Z] although no node has id Z. *)
Lemma merge_admits_dangling_link :
  noDangling danglingHeap danglingExisting ∧
  links (merge danglingHeap danglingExisting danglingIncoming) = [0; 1] ∧
  ¬ noDangling danglingHeap
      (merge danglingHeap danglingExisting danglingIncoming).
Proof.
  split; [|split].
  - intros l Hl. apply list_elem_of_singleton in Hl as ->.
    split; vm_compute; [by left | right; by left].
  - vm_compute. reflexivity.
  - intros H. destruct (H 1) as [_ Hz].
    + vm_compute. right. by left.
    + vm_compute in Hz.
      repeat (apply elem_of_cons in Hz as [Hz|Hz]; [discriminate|]).
      by apply not_elem_of_nil in Hz.
Qed.

(** C3, amended. The merge does not look at the endpoints of a link: a link
    is in the merged graph exactly when it is an existing link or an incoming
    link whose key is the key of no existing link, and the merged link list
    is the same whatever the two node lists are. *)
Theorem merge_admits_links_by_key_only (h : Heap) (cur inc : GraphData) :
  (∀ l, l ∈ links (merge h cur inc) ↔
        l ∈ links cur ∨
        (l ∈ links inc ∧ linkKey h l ∉ (linkKey h <$> links cur))) ∧
  (∀ ns ns', links (merge h {| nodes := ns; links := links cur |}
                            {| nodes := ns'; links := links inc |})
             = links (merge h cur inc)).
Proof.
  split.
  - intros l. rewrite merge_links, elem_of_app, list_elem_of_filter. tauto.
  - intros ns ns'. by rewrite !merge_links.
Qed.

(** C10. [addGraphData] writes no object: the heap after the call is the heap
    before it, so every existing node and link object keeps all its fields;
    the merged arrays start with the very references of the current arrays,
    in their order, and the other fields of the store are as before. *)
Theorem addGraphData_leaves_existing_untouched (data : GraphData) (h : Heap)
    (s : State) :
  let h' := (addGraphData data (h, s)).1 in
  let s' := (addGraphData data (h, s)).2 in
  h' = h ∧
  (∀ r, nodeObjs h' !! r = nodeObjs h !! r) ∧
  (∀ l, linkObjs h' !! l = linkObjs h !! l) ∧
  take (length (nodes (graphData s))) (nodes (graphData s'))
    = nodes (graphData s) ∧
  take (length (links (graphData s))) (links (graphData s'))
    = links (graphData s) ∧
  (∀ i r, nodes (graphData s) !! i = Some r →
          nodes (graphData s') !! i = Some r) ∧
  (∀ i l, links (graphData s) !! i = Some l →
          links (graphData s') !! i = Some l) ∧
  set_graphData (graphData s) s' = s.
Proof.
  simpl. rewrite !take_app_length.
  repeat split; try done.
  - intros i r Hi. by apply lookup_app_l_Some.
  - intros i l Hi. by apply lookup_app_l_Some.
  - by destruct s.
Qed.

End MergeTheorems.

(** ** The physics engine *)

Section PhysicsTheorems.
Import Store Physics Examples.

Lemma pinsIn_write_same h r a b :
  is_Some (nodeObjs h !! r) → pinsIn (write_pins r a b h) r = Some (a, b).
Proof.
  intros [n Hn]. unfold pinsIn, write_pins; simpl.
  by rewrite lookup_alter_eq, Hn.
Qed.

Lemma pinsIn_write_other h r r' a b :
  r ≠ r' → pinsIn (write_pins r a b h) r' = pinsIn h r'.
Proof.
  intros Hne. unfold pinsIn, write_pins; simpl.
  by rewrite lookup_alter_ne.
Qed.

Lemma pinsIn_write_is_Some h r r' a b :
  is_Some (pinsIn h r') → is_Some (pinsIn (write_pins r a b h) r').
Proof.
  unfold pinsIn, write_pins; simpl. intros Hs.
  destruct (decide (r = r')) as [->|Hne].
  - rewrite lookup_alter_eq. destruct (nodeObjs h !! r'); simpl; eauto.
  - by rewrite lookup_alter_ne.
Qed.

(** Timer callbacks only clear pins: a cleared node stays cleared. *)
Lemma fire_keeps_cleared t ts h r :
  pinsIn h r = Some (PinNull, PinNull) →
  pinsIn (fire t ts h).1 r = Some (PinNull, PinNull).
Proof.
  revert h. induction ts as [|tm ts IH]; intros h Hr; simpl; [done|].
  destruct (due tm <=? t).
  - apply IH. destruct (callback tm) as [node]; simpl.
    destruct (decide (node = r)) as [->|Hne].
    + apply pinsIn_write_same. unfold pinsIn in Hr.
      destruct (nodeObjs h !! r); [eauto | discriminate].
    + by rewrite pinsIn_write_other.
  - specialize (IH h Hr). destruct (fire t ts h) as [h' ts']. done.
Qed.

(** A due timer on [r] leaves [r] cleared, whatever else fires. *)
Lemma fire_clears t ts h r tm :
  tm ∈ ts → due tm ≤ t → callback tm = Unpin r →
  is_Some (pinsIn h r) →
  pinsIn (fire t ts h).1 r = Some (PinNull, PinNull).
Proof.
  revert h. induction ts as [|tm' ts IH]; intros h Hin Hdue Hcb Hs.
  { by apply not_elem_of_nil in Hin. }
  simpl. apply elem_of_cons in Hin as [<-|Hin].
  - apply Nat.leb_le in Hdue. rewrite Hdue, Hcb. simpl.
    apply fire_keeps_cleared, pinsIn_write_same.
    unfold pinsIn in Hs. destruct (nodeObjs h !! r); [eauto|].
    by destruct Hs.
  - destruct (due tm' <=? t).
    + apply IH; try done. destruct (callback tm'); simpl.
      by apply pinsIn_write_is_Some.
    + specialize (IH h Hin Hdue Hcb Hs).
      destruct (fire t ts h) as [h' ts']. done.
Qed.

(** Timers that are not due leave the heap alone. *)
Lemma fire_not_due t ts h :
  Forall (λ tm, t < due tm) ts → fire t ts h = (h, ts).
Proof.
  induction 1 as [|tm ts Hlt _ IH]; simpl; [done|].
  apply Nat.leb_gt in Hlt. by rewrite Hlt, IH.
Qed.

Lemma restart_stop_alpha (e : PhysicsEngine) :
  alpha (simulation (restart (stop e))) = alpha (simulation e).
Proof. reflexivity. Qed.

Lemma restart_stop_running (e : PhysicsEngine) :
  running (simulation (restart (stop e))) = true.
Proof. reflexivity. Qed.

(** C8, as the claim states it, fails.  An engine that has cooled for 100
    steps is stopped and restarted: it runs again, and its alpha is what it
    was before the stop, about 0.13, less than half the alpha that
    [centerNode] sets. *)
Lemma restart_does_not_reheat :
  let e := restart (stop cooledEngine) in
  running (simulation e) = true ∧
  alpha (simulation e) = alpha (simulation cooledEngine) ∧
  (alpha (simulation e) < 0.15)%Q ∧
  ¬ (0.3 <= alpha (simulation e))%Q.
Proof.
  cbv zeta. rewrite restart_stop_alpha, restart_stop_running.
  assert (Hlow : (alpha (simulation cooledEngine) < 0.15)%Q)
    by (vm_compute; reflexivity).
  revert Hlow. generalize (alpha (simulation cooledEngine)). intros a Hlow.
  split; [reflexivity|]. split; [reflexivity|]. split; [exact Hlow|].
  apply Qlt_not_le. eapply Qlt_trans; [exact Hlow|]. reflexivity.
Qed.

(** C8, amended. [restart] resumes the timer of the simulation and leaves
    alpha, the nodes and the links as they are; so after [stop] and
    [restart] the simulation runs with the alpha it had when it was
    stopped. *)
Theorem restart_resumes_with_alpha_unchanged (e : PhysicsEngine) :
  running (simulation (restart e)) = true ∧
  alpha (simulation (restart e)) = alpha (simulation e) ∧
  running (simulation (stop e)) = false ∧
  running (simulation (restart (stop e))) = true ∧
  alpha (simulation (restart (stop e))) = alpha (simulation e) ∧
  nodes (restart (stop e)) = nodes e ∧
  links (restart (stop e)) = links e.
Proof.
  rewrite restart_stop_alpha, restart_stop_running. repeat split.
Qed.

(** C9. For an id found in the working set, [centerNode] at once pins the
    node object at the origin and restarts the simulation with alpha 0.3;
    once 1000 ms or more have passed the pin fields of that object are
    null. *)
Theorem centerNode_pins_then_unpins (w : World) (nodeId : string)
    (node : nref) :
  List.find (hasId (heap w) nodeId) (nodes (engine w)) = Some node →
  let w1 := centerNode nodeId w in
  pins w1 node = Some (PinAt (Num 0), PinAt (Num 0)) ∧
  alpha (simulation (engine w1)) = 0.3%Q ∧
  running (simulation (engine w1)) = true ∧
  (∀ dt, unpinDelay ≤ dt →
         pins (advance dt w1) node = Some (PinNull, PinNull)).
Proof.
  intros Hfind. simpl. unfold centerNode. rewrite Hfind.
  apply find_some in Hfind as [_ Hid].
  assert (Hobj : is_Some (nodeObjs (heap w) !! node)).
  { unfold hasId in Hid. destruct (nodeObjs (heap w) !! node); [eauto|done]. }
  split; [by apply pinsIn_write_same|].
  do 2 (split; [reflexivity|]).
  intros dt Hdt. unfold advance, pins; simpl.
  match goal with |- context [fire ?t ?ts ?h] =>
    pose proof (fire_clears t ts h node
                  {| due := clock w + unpinDelay; callback := Unpin node |})
      as Hfire;
    destruct (fire t ts h) as [h' ts'] end.
  simpl in *. apply Hfire; [| lia | done |].
  - apply elem_of_app. right. by left.
  - rewrite pinsIn_write_same; eauto.
Qed.

(** Node A of the two-node world is found and centered. *)
Lemma centerNode_pins_then_unpins_witness :
  let w1 := centerNode "A" twoNodeWorld in
  pins w1 0 = Some (PinAt (Num 0), PinAt (Num 0)) ∧
  alpha (simulation (engine w1)) = 0.3%Q ∧
  running (simulation (engine w1)) = true ∧
  (∀ dt, unpinDelay ≤ dt →
         pins (advance dt w1) 0 = Some (PinNull, PinNull)).
Proof.
  apply (centerNode_pins_then_unpins twoNodeWorld "A" 0).
  vm_compute. reflexivity.
Defined.

(** Until the delay has passed the node stays pinned at the origin, when no
    older timer is pending. *)
Lemma centerNode_pinned_until_delay (w : World) (nodeId : string)
    (node : nref) (dt : nat) :
  List.find (hasId (heap w) nodeId) (nodes (engine w)) = Some node →
  timers w = [] → dt < unpinDelay →
  pins (advance dt (centerNode nodeId w)) node
  = Some (PinAt (Num 0), PinAt (Num 0)).
Proof.
  intros Hfind Hts Hdt. unfold centerNode. rewrite Hfind, Hts.
  apply find_some in Hfind as [_ Hid].
  unfold advance, pins; simpl fire.
  rewrite (proj2 (Nat.leb_gt _ _)) by (simpl; lia). simpl.
  apply pinsIn_write_same.
  unfold hasId in Hid. destruct (nodeObjs (heap w) !! node); [eauto|done].
Qed.

End PhysicsTheorems.

(** ** The canvas *)

Section CanvasTheorems.
Import Store Canvas Spec Examples.

(** [getNodeAt] answers with the first node of the array that passes its
    test, and with nothing when none passes. *)
Lemma getNodeAt_first (sc : Scene) (v : View) (cx cy : num) (r : nref) :
  getNodeAt sc v cx cy = Some r ↔
  ∃ before after,
    graphNodes sc = before ++ r :: after ∧
    hitsRef (heap sc) (dimensions sc) v
      {| px := (cx - left (rect sc))%js; py := (cy - top (rect sc))%js |} r
    = true ∧
    Forall (λ r', hitsRef (heap sc) (dimensions sc) v
                   {| px := (cx - left (rect sc))%js;
                      py := (cy - top (rect sc))%js |} r' = false) before.
Proof.
  unfold getNodeAt.
  generalize (hitsRef (heap sc) (dimensions sc) v
    {| px := (cx - left (rect sc))%js; py := (cy - top (rect sc))%js |}).
  intros f. induction (graphNodes sc) as [|a l IH]; simpl.
  - split; [done|]. intros (b & a' & Heq & _). by destruct b.
  - destruct (f a) eqn:Hfa.
    + split.
      * intros [= ->]. exists [], l. by repeat split.
      * intros ([|b bs] & a' & Heq & Hr & Hb); simplify_eq/=; [done|].
        apply Forall_cons in Hb as [Hb _]. congruence.
    + rewrite IH. split.
      * intros (b & a' & -> & Hr & Hb). exists (a :: b), a'.
        repeat split; [done|]. by constructor.
      * intros ([|b bs] & a' & Heq & Hr & Hb); simplify_eq/=; [congruence|].
        apply Forall_cons in Hb as [_ Hb]. eauto.
Qed.

Lemma getNodeAt_none (sc : Scene) (v : View) (cx cy : num) :
  getNodeAt sc v cx cy = None ↔
  Forall (λ r, hitsRef (heap sc) (dimensions sc) v
                 {| px := (cx - left (rect sc))%js;
                    py := (cy - top (rect sc))%js |} r = false)
         (graphNodes sc).
Proof.
  unfold getNodeAt.
  generalize (hitsRef (heap sc) (dimensions sc) v
    {| px := (cx - left (rect sc))%js; py := (cy - top (rect sc))%js |}).
  intros f. induction (graphNodes sc) as [|a l IH]; simpl.
  - split; [constructor|done].
  - destruct (f a) eqn:Hfa.
    + split; [done|]. intros Hall. apply Forall_cons in Hall as [? _].
      congruence.
    + rewrite IH. split; [by constructor|].
      intros Hall. by apply Forall_cons in Hall as [_ ?].
Qed.

(** For a node without author count and with a nonzero position the test of
    [getNodeAt] is the test of the specification. *)
Lemma hits_without_author_bonus dims v p node ax ay :
  author_count node = None →
  x node = Some ax → y node = Some ay →
  truthy ax = true → truthy ay = true →
  hits dims v p node = withinRenderRadius dims v p node.
Proof.
  intros Hac Hx Hy Htx Hty.
  unfold hits, withinRenderRadius, screenDistance, screenPos, radiusScaled,
    orZero.
  rewrite Hac, Hx, Hy, Htx, Hty. reflexivity.
Qed.

(** C6. The renderer adds a bonus for the author count to the radius, the
    hit test does not.  A cited paper with 16 authors sits at the center of
    the canvas at scale 1 and is drawn with radius 16; the pointer is 14
    pixels to its right, on the disc; [getNodeAt] finds no node. *)
Theorem getNodeAt_ignores_author_bonus :
  let pointer := {| px := Num 414; py := Num 300 |} in
  (radiusScaled manyAuthors (k initialView) ≈ Num 16)%js ∧
  (∃ d, screenDistance initialDimensions initialView pointer manyAuthors
        = Some d ∧ (d ≈ Num 14)%js) ∧
  withinRenderRadius initialDimensions initialView pointer manyAuthors = true ∧
  hits initialDimensions initialView pointer manyAuthors = false ∧
  getNodeAt manyAuthorsScene initialView (Num 414) (Num 300) = None.
Proof.
  cbv zeta. split; [vm_compute; reflexivity|]. split.
  { eexists. split; [reflexivity|]. vm_compute. reflexivity. }
  repeat split; vm_compute; reflexivity.
Qed.

(** *** The scale *)

Lemma clamp_within (a : num) :
  is_NaN a = false → within 0.3 5 (max (Num 0.3) (min (Num 5) a)).
Proof.
  destruct a as [q| | |]; intros HNaN; try discriminate; simpl;
    try (split; lra).
  unfold min, max, lt.
  destruct (Qle_bool 5 q) eqn:H5; simpl.
  - split; lra.
  - destruct (Qle_bool q 0.3) eqn:H3; simpl.
    + split; lra.
    + assert (¬ (5 <= q)%Q) by (rewrite <- Qle_bool_iff; congruence).
      assert (¬ (q <= 0.3)%Q) by (rewrite <- Qle_bool_iff; congruence).
      split; lra.
Qed.

Lemma clamp_NaN (a : num) :
  is_NaN a = true → max (Num 0.3) (min (Num 5) a) = NaN.
Proof. by destruct a. Qed.

(** The scale after the frame of a wheel event or of a two-finger move is the
    clamped product of the old scale and the factor. *)
Lemma wheelFrame_scale exp sc e g :
  ∃ factor, k (view (wheelFrame exp sc e g))
            = max (Num 0.3) (min (Num 5) (k (view g) * factor)%js).
Proof. eexists. reflexivity. Qed.

Lemma touchFrame_pinch_scale sc t1 t2 g :
  k (view (touchFrame sc [t1; t2] g))
  = max (Num 0.3)
        (min (Num 5)
           (k (view g) * (touchDistance t1 t2 / lastPinchDistance g))%js).
Proof. reflexivity. Qed.

(** Whatever happens, the new scale is the old scale, or the clamped product
    of the old scale and some factor. *)
Lemma step_scale exp sc ev g :
  k (view (step exp sc ev g)) = k (view g) ∨
  ∃ factor, k (view (step exp sc ev g))
            = max (Num 0.3) (min (Num 5) (k (view g) * factor)%js).
Proof.
  destruct ev; unfold step.
  - left. unfold handleWheel. by destruct (negb _).
  - left. unfold wheelTimeoutFires. by destruct (wheelTimeout g).
  - unfold animationFrame. destruct (raf g) as [[e|touches]|]; [| |by left].
    + right. destruct (wheelFrame_scale exp sc e (set_raf None g)) as [f Hf].
      exists f. exact Hf.
    + destruct touches as [|t1 [|t2 [|t3 ts]]]; try by left.
      * left. unfold touchFrame. by destruct (isPanning _).
      * right. eexists.
        exact (touchFrame_pinch_scale sc t1 t2 (set_raf None g)).
  - left. unfold handleMouseDown.
    destruct (negb _); [done|]. by destruct (getNodeAt _ _ _ _).
  - left. unfold handleMouseMove. by destruct (isPanning g).
  - left. unfold handleMouseUp. by destruct (isPanning g).
  - left. unfold handleTouchStart.
    destruct touches as [|t1 [|t2 [|t3 ts]]]; try done.
    by destruct (getNodeAt _ _ _ _).
  - by left.
  - left. unfold handleTouchEnd.
    destruct remaining as [|t1 [|t2 ts]]; try done.
    by destruct (_ =? 2).
  - by left.
Qed.

(** Along any sequence of events the scale is in [[0.3, 5]] or is NaN. *)
Lemma run_scale_within_or_NaN exp evs g :
  within 0.3 5 (k (view g)) ∨ k (view g) = NaN →
  within 0.3 5 (k (view (run exp evs g))) ∨ k (view (run exp evs g)) = NaN.
Proof.
  revert g. induction evs as [|[sc ev] evs IH]; intros g Hg; simpl; [done|].
  apply IH. destruct (step_scale exp sc ev g) as [->|[a ->]]; [done|].
  destruct (is_NaN (k (view g) * a)%js) eqn:Ha.
  - right. by apply clamp_NaN.
  - left. by apply clamp_within.
Qed.

(** A scale that is NaN stays NaN. *)
Lemma scale_NaN_persists exp evs g :
  k (view g) = NaN → k (view (run exp evs g)) = NaN.
Proof.
  revert g. induction evs as [|[sc ev] evs IH]; intros g Hg; simpl; [done|].
  apply IH. destruct (step_scale exp sc ev g) as [->|[a ->]]; [done|].
  by rewrite Hg.
Qed.

Lemma within_positive (q : Q) : (0.3 <= q)%Q → Qsgn q = 1%Z.
Proof.
  unfold Qle, Qsgn; simpl. intros H.
  destruct (Qnum q); simpl; lia.
Qed.

(** A wheel frame keeps the scale in range: the accumulated delta is a
    number or an infinity, and the exponential of such a value is never
    negative and never NaN. *)
Lemma wheelFrame_scale_within exp sc e g :
  (∀ a, is_NaN a = false → is_NaN (exp a) = false ∧ (exp a <? Num 0)%js = false) →
  within 0.3 5 (k (view g)) →
  is_NaN (pendingWheelDelta g) = false →
  within 0.3 5 (k (view (wheelFrame exp sc e g))).
Proof.
  intros Hexp Hk Hpending. unfold wheelFrame; simpl.
  apply clamp_within.
  destruct (k (view g)) as [q| | |]; try done. destruct Hk as [Hlo _].
  assert (Harg : ∀ c, (0 < c)%Q →
            is_NaN (- pendingWheelDelta g * Num c)%js = false).
  { intros c Hc. assert (Qsgn c = 1%Z) as Hs.
    { unfold Qlt, Qsgn in *; simpl in *. destruct (Qnum c); simpl; lia. }
    destruct (pendingWheelDelta g); try done; simpl; by rewrite Hs. }
  assert (Hfactor : ∀ a, is_NaN a = false → is_NaN (Num q * exp a)%js = false).
  { intros a Ha. destruct (Hexp a Ha) as [Hn Hneg].
    destruct (exp a); try done; simpl.
    by rewrite (within_positive q Hlo). }
  destruct (ctrlKey e || _); apply Hfactor, Harg; reflexivity.
Qed.

(** C4. Two fingers put down on the same spot and moved: the distance
    between them is 0 before and after, the factor is [0 / 0], and the scale
    of the view after the frame is NaN, which is in no interval. *)
Theorem pinch_with_coincident_touches_breaks_scale (exp : num → num)
    (e : Physics.PhysicsEngine) :
  let g := run exp coincidentPinch (initialRefs e) in
  (touchDistance finger1 finger2 ≈ Num 0)%js ∧
  (touchDistance finger1 finger2 / touchDistance finger1 finger2)%js = NaN ∧
  k (view g) = NaN ∧
  ¬ within 0.3 5 (k (view g)).
Proof.
  cbv zeta.
  assert (Hk : k (view (run exp coincidentPinch (initialRefs e))) = NaN)
    by (vm_compute; reflexivity).
  rewrite Hk. split; [vm_compute; reflexivity|].
  split; [vm_compute; reflexivity|]. split; [reflexivity|].
  intros Hin. exact Hin.
Qed.

(** *** Zooming about the pointer *)

Lemma clamp_high (q : Q) :
  (5 <= q)%Q → max (Num 0.3) (min (Num 5) (Num q)) = Num 5.
Proof.
  intros Hq. unfold min, max, lt.
  apply Qle_bool_iff in Hq. rewrite Hq. reflexivity.
Qed.

Lemma run_app exp evs evs' g :
  run exp (evs ++ evs') g = run exp evs' (run exp evs g).
Proof.
  revert g. induction evs as [|[sc ev] evs IH]; intros g; simpl; [done|].
  apply IH.
Qed.

(** Both frames update the translate by the formula of the specification. *)
Lemma wheelFrame_translate exp sc e g :
  let v' := view (wheelFrame exp sc e g) in
  tx v' = zoomTranslate (tx (view g))
            (w_clientX e - left (rect sc) - width (dimensions sc) / Num 2)%js
            (k (view g)) (k v') ∧
  ty v' = zoomTranslate (ty (view g))
            (w_clientY e - top (rect sc) - height (dimensions sc) / Num 2)%js
            (k (view g)) (k v').
Proof. split; reflexivity. Qed.

Lemma touchFrame_translate sc t1 t2 g :
  let v' := view (touchFrame sc [t1; t2] g) in
  tx v' = zoomTranslate (tx (view g))
            ((clientX t1 + clientX t2) / Num 2 - left (rect sc)
             - width (dimensions sc) / Num 2)%js
            (k (view g)) (k v') ∧
  ty v' = zoomTranslate (ty (view g))
            ((clientY t1 + clientY t2) / Num 2 - top (rect sc)
             - height (dimensions sc) / Num 2)%js
            (k (view g)) (k v').
Proof. split; reflexivity. Qed.

Lemma zoom_identity (ko kn t p : Q) :
  ¬ (ko == 0)%Q → ¬ (kn == 0)%Q →
  ((p + - (t + p * (1 + - (kn / ko)))) / kn == (p + - t) / ko)%Q
  ↔ (t == 0)%Q ∨ (kn == ko)%Q.
Proof.
  intros Hko Hkn.
  assert (Hd : ((p + - (t + p * (1 + - (kn / ko)))) / kn - (p + - t) / ko
                == t * (kn - ko) / (kn * ko))%Q) by (field; by split).
  split.
  - intros E. rewrite E in Hd.
    assert (H0 : (t * (kn - ko) == 0)%Q).
    { assert (t * (kn - ko) == (t * (kn - ko) / (kn * ko)) * (kn * ko))%Q
        as -> by (field; by split).
      rewrite <- Hd. ring. }
    apply Qmult_integral in H0 as [H0|H0]; [by left|right; lra].
  - intros [Ht|Hk].
    + rewrite Ht. field. by split.
    + rewrite Hk. field. done.
Qed.

(** With that formula the world coordinate under the pointer is the same
    before and after the step exactly when the old translate is zero or the
    scale has not changed. *)
Lemma zoomTranslate_keeps_point_iff (ko kn t p : Q) :
  ¬ (ko == 0)%Q → ¬ (kn == 0)%Q →
  (px (worldAt {| k := Num kn;
                  tx := zoomTranslate (Num t) (Num p) (Num ko) (Num kn);
                  ty := Num 0 |} {| px := Num p; py := Num 0 |})
   ≈ px (worldAt {| k := Num ko; tx := Num t; ty := Num 0 |}
                 {| px := Num p; py := Num 0 |}))%js
  ↔ (t == 0)%Q ∨ (kn == ko)%Q.
Proof.
  intros Hko Hkn. unfold worldAt, zoomTranslate; simpl.
  destruct (Qeq_bool ko 0) eqn:Eo; [by apply Qeq_bool_iff in Eo|].
  destruct (Qeq_bool kn 0) eqn:En; [by apply Qeq_bool_iff in En|].
  simpl. rewrite ?Eo, ?En. simpl. by apply zoom_identity.
Qed.

(** C5. The canvas is dragged 10 pixels to the right, then the wheel is
    turned up by 2000 over the center of the canvas.  [Math.exp(4)] is over
    5, so the scale goes from 1 to the bound 5; the pointer offset is 0, so
    the translate stays 10; the world coordinate under the pointer was -10
    before the step and is -2 after it. *)
Theorem wheel_zoom_moves_point_under_pointer (exp : num → num) :
  (∀ q, (q == 4)%Q → ∃ f, exp (Num q) = Num f ∧ (5 <= f)%Q) →
  let before := view (run exp panRight freshRefs) in
  let after := view (run exp (panRight ++ wheelZoom) freshRefs) in
  before = {| k := Num 1; tx := Num 10; ty := Num 0 |} ∧
  k after = Num 5 ∧
  (tx after ≈ Num 10)%js ∧
  (px (worldAt before atCenter) ≈ Num (-10))%js ∧
  (px (worldAt after atCenter) ≈ Num (-2))%js.
Proof.
  intros Hexp. cbv zeta. rewrite run_app.
  assert (Hb : run exp panRight freshRefs
               = set_lastPos {| px := Num 210; py := Num 200 |}
                   (set_view {| k := Num 1; tx := Num 10; ty := Num 0 |}
                      freshRefs))
    by (vm_compute; reflexivity).
  rewrite Hb.
  unfold wheelZoom, run, step, animationFrame, handleWheel.
  cbn [raf set_raf set_wheelTimeout negb isInteracting set_view set_lastPos
       freshRefs initialRefs set_physics set_isInteracting
       set_pendingWheelDelta].
  unfold wheelFrame.
  cbn [raf set_raf set_wheelTimeout negb isInteracting set_view set_lastPos
       freshRefs initialRefs set_physics set_isInteracting
       set_pendingWheelDelta pendingWheelDelta view k tx ty wheelUp ctrlKey
       deltaX deltaY orb].
  change (abs (Num 0) >? Num 0)%js with false. cbv iota.
  change (- (Num 0 + Num (-2000)) * Num 0.002)%js
    with (Num (- (0 + -2000) * 0.002)).
  destruct (Hexp (- (0 + -2000) * 0.002)%Q) as (f & -> & Hf); [reflexivity|].
  change (Num 1 * Num f)%js with (Num (1 * f)).
  rewrite clamp_high by lra.
  repeat split; vm_compute; reflexivity.
Qed.

(** The hypothesis on [Math.exp] holds of a rational lower bound of the
    exponential. *)
Lemma wheel_zoom_moves_point_under_pointer_witness :
  let before := view (run expLower panRight freshRefs) in
  let after := view (run expLower (panRight ++ wheelZoom) freshRefs) in
  before = {| k := Num 1; tx := Num 10; ty := Num 0 |} ∧
  k after = Num 5 ∧
  (tx after ≈ Num 10)%js ∧
  (px (worldAt before atCenter) ≈ Num (-10))%js ∧
  (px (worldAt after atCenter) ≈ Num (-2))%js.
Proof.
  apply (wheel_zoom_moves_point_under_pointer expLower).
  intros q Hq. unfold expLower.
  assert (Hpos : Qle_bool 0 q = true) by (apply Qle_bool_iff; lra).
  rewrite Hpos. eexists. split; [reflexivity|].
  rewrite Hq. vm_compute. discriminate.
Defined.

(** *** The expansion guard *)

Lemma reachable_guardInv (a : App) : reachable a → guardInv a.
Proof.
  induction 1 as [w g|ev a Hreach IH].
  - left. done.
  - destruct ev as [dims r cx cy|i objs data|i|w v s]; simpl.
    + unfold handleClick.
      destruct (getNodeAt _ _ _ _) as [node|]; [|done].
      destruct IH as [[Hflag Hreq]|[Hflag Hreq]]; rewrite Hflag; simpl;
        [|by right].
      destruct (nodeObjs _ !! node) as [n|]; [|by left].
      right. split; [done|]. exists (id n). rewrite Hreq. done.
    + unfold expandResolved.
      destruct IH as [[Hflag Hreq]|[Hflag (n & Hreq & Hid)]].
      * rewrite Hreq. simpl. left. done.
      * rewrite Hreq. destruct i as [|i]; simpl; [by left|].
        right. eauto.
    + unfold expandRejected.
      destruct IH as [[Hflag Hreq]|[Hflag (n & Hreq & Hid)]].
      * rewrite Hreq. simpl. left. done.
      * rewrite Hreq. destruct i as [|i]; simpl; [by left|].
        right. eauto.
    + destruct IH as [[Hflag Hreq]|[Hflag (n & Hreq & Hid)]]; [by left|].
      right. eauto.
Qed.

(** C7, as the claim states it, fails.  A is clicked and its expansion is
    awaited; then B is clicked, and the hit test does find B; the only
    request in flight is still the one for A, and A is still the selected
    paper: the click on B has changed nothing. *)
Lemma click_on_other_node_while_expanding :
  let a2 := handleClick initialDimensions windowRect (Num 500) (Num 300)
              expandingA in
  inflight expandingA = ["A"%string] ∧
  getNodeAt (sceneOf initialDimensions windowRect expandingA)
    (currentView expandingA) (Num 500) (Num 300) = Some 1 ∧
  nodeId (Physics.heap (world expandingA)) 1 = "B"%string ∧
  inflight a2 = ["A"%string] ∧
  selectedPaper (store a2) = Some "A"%string ∧
  a2 = expandingA.
Proof. cbv zeta. repeat split; vm_compute; reflexivity. Qed.

(** C7, amended. The guard is one flag for the whole canvas.  In every
    reachable state with a request for N in flight, that request is the only
    one, the flag is up, and a click anywhere, on N or on any other node,
    leaves the state as it is: no request is issued. *)
Theorem click_while_expanding_is_ignored (a : App) (N : string)
    (dims : Dimensions) (r : DOMRect) (cx cy : num) :
  reachable a → N ∈ inflight a →
  inflight a = [N] ∧
  isExpandingNode (store a) = true ∧
  handleClick dims r cx cy a = a.
Proof.
  intros Hreach HN.
  destruct (reachable_guardInv a Hreach) as [[_ Hreq]|[Hflag (n & Hreq & _)]].
  - rewrite Hreq in HN. by apply not_elem_of_nil in HN.
  - rewrite Hreq in HN. apply list_elem_of_singleton in HN as ->.
    repeat split; [done..|].
    unfold handleClick. rewrite Hflag.
    by destruct (getNodeAt _ _ _ _).
Qed.

(** The hypotheses hold after a click on A in the two-node graph. *)
Lemma click_while_expanding_is_ignored_witness :
  inflight expandingA = ["A"%string] ∧
  isExpandingNode (store expandingA) = true ∧
  handleClick initialDimensions windowRect (Num 500) (Num 300) expandingA
  = expandingA.
Proof.
  apply (click_while_expanding_is_ignored expandingA "A").
  - apply (reach_step
             (Click initialDimensions windowRect (Num 400) (Num 300))).
    apply reach_init.
  - vm_compute. by left.
Defined.

(** Once the response has come a click on B does issue its request. *)
Example click_after_response :
  let a := expandRejected 0 expandingA in
  inflight (handleClick initialDimensions windowRect (Num 500) (Num 300) a)
  = ["B"%string].
Proof. vm_compute. reflexivity. Qed.

(** *** Pausing and resuming the engine *)

(** A wheel interaction stops the engine, its timeout restarts it, and the
    alpha of the simulation is the one it had before the interaction. *)
Lemma wheel_interaction_keeps_alpha (e : WheelEvent) (g : Refs) :
  isInteracting g = false →
  let g1 := handleWheel e g in
  let g2 := wheelTimeoutFires g1 in
  Physics.running (Physics.simulation (physics g1)) = false ∧
  Physics.running (Physics.simulation (physics g2)) = true ∧
  Physics.alpha (Physics.simulation (physics g2))
  = Physics.alpha (Physics.simulation (physics g)).
Proof.
  intros Hidle. unfold handleWheel, wheelTimeoutFires. simpl.
  rewrite Hidle. simpl. done.
Qed.

(** The same for a drag of the empty canvas. *)
Lemma pan_keeps_alpha (sc : Scene) (e : MouseEvent) (g : Refs) :
  button e = 0 →
  getNodeAt sc (view g) (m_clientX e) (m_clientY e) = None →
  let g1 := handleMouseDown sc e g in
  let g2 := handleMouseUp g1 in
  Physics.running (Physics.simulation (physics g1)) = false ∧
  Physics.running (Physics.simulation (physics g2)) = true ∧
  Physics.alpha (Physics.simulation (physics g2))
  = Physics.alpha (Physics.simulation (physics g)).
Proof.
  intros Hbutton Hnone. unfold handleMouseDown, handleMouseUp.
  rewrite Hbutton, Hnone. simpl. done.
Qed.

End CanvasTheorems.

(** * Further properties *)

(** ** The merge as an operation on graphs *)

Section MergeAlgebra.
Import Store Spec Examples.

Lemma graph_eq (g1 g2 : GraphData) :
  nodes g1 = nodes g2 → links g1 = links g2 → g1 = g2.
Proof. destruct g1, g2; simpl; by intros -> ->. Qed.

(** Keeping of [inc] what has a new key, for any notion of key. *)
Lemma fresh_absorb {A K : Type} `{EqDecision K} (key : A → K)
    (cur inc : list A) :
  filter (λ a, key a ∉ key <$>
            (cur ++ filter (λ a, key a ∉ key <$> cur) inc)) inc = [].
Proof.
  apply filter_none. intros a Ha Hnew. apply Hnew.
  rewrite fmap_app, elem_of_app.
  destruct (decide (key a ∈ key <$> cur)) as [|Hfresh]; [by left|].
  right. apply list_elem_of_fmap_2, list_elem_of_filter. done.
Qed.

Lemma fresh_key_app {A K : Type} `{EqDecision K} (key : A → K)
    (a b : list A) (c : A) :
  key c ∉ key <$> (a ++ filter (λ x, key x ∉ key <$> a) b)
  ↔ (key c ∉ key <$> a) ∧ (key c ∉ key <$> b).
Proof.
  rewrite fmap_app, elem_of_app. split.
  - intros Hnot. split; [tauto|]. intros Hb. apply Hnot.
    destruct (decide (key c ∈ key <$> a)) as [|Hfresh]; [by left|]. right.
    apply list_elem_of_fmap in Hb as (b' & Hkey & Hb').
    apply list_elem_of_fmap. exists b'. split; [done|].
    apply list_elem_of_filter. split; [congruence|done].
  - intros [Ha Hb] [Hin|Hin]; [done|]. apply Hb.
    apply list_elem_of_fmap in Hin as (b' & Hkey & Hb').
    apply list_elem_of_filter in Hb' as [_ Hb'].
    apply list_elem_of_fmap. eauto.
Qed.

Lemma fresh_assoc {A K : Type} `{EqDecision K} (key : A → K)
    (a b c : list A) :
  filter (λ x, key x ∉ key <$>
            (a ++ filter (λ x, key x ∉ key <$> a) b)) c
  = filter (λ x, key x ∉ key <$> a) (filter (λ x, key x ∉ key <$> b) c).
Proof.
  rewrite list_filter_filter. apply filter_agree.
  intros x _. apply fresh_key_app.
Qed.

Lemma NoDup_fmap_filter {A K : Type} (key : A → K) (P : A → Prop)
    `{!∀ a, Decision (P a)} (l : list A) :
  NoDup (key <$> l) → NoDup (key <$> filter P l).
Proof.
  induction l as [|a l IH]; simpl; [done|].
  rewrite NoDup_cons. intros [Ha Hl]. rewrite filter_cons.
  destruct (decide (P a)); [|by apply IH].
  rewrite fmap_cons, NoDup_cons. split; [|by apply IH].
  intros Hin. apply Ha.
  apply list_elem_of_fmap in Hin as (b & Hkey & Hb).
  apply list_elem_of_filter in Hb as [_ Hb].
  apply list_elem_of_fmap. eauto.
Qed.

Lemma fresh_NoDup {A K : Type} `{EqDecision K} (key : A → K)
    (cur inc : list A) :
  NoDup (key <$> cur) → NoDup (key <$> inc) →
  NoDup (key <$> (cur ++ filter (λ a, key a ∉ key <$> cur) inc)).
Proof.
  intros Hcur Hinc. rewrite fmap_app. apply NoDup_app.
  split; [done|]. split; [|by apply NoDup_fmap_filter].
  intros i Hi Hnew.
  apply list_elem_of_fmap in Hnew as (b & -> & Hb).
  apply list_elem_of_filter in Hb as [Hfresh _]. done.
Qed.

(** X1. A response merged a second time changes nothing: everything it holds
    has by then an id, or a key, that is present. *)
Theorem merge_absorbs_repeated_response (h : Heap) (G D : GraphData) :
  merge h (merge h G D) D = merge h G D.
Proof.
  apply graph_eq.
  - rewrite (merge_nodes h (merge h G D) D), (merge_nodes h G D).
    by rewrite fresh_absorb, app_nil_r.
  - rewrite (merge_links h (merge h G D) D), (merge_links h G D).
    by rewrite fresh_absorb, app_nil_r.
Qed.

(** X2. Merging is associative: two responses merged one after the other
    give the graph that merging their merge gives. *)
Theorem merge_assoc (h : Heap) (A B C : GraphData) :
  merge h (merge h A B) C = merge h A (merge h B C).
Proof.
  apply graph_eq.
  - rewrite !merge_nodes, !filter_app, fresh_assoc. by rewrite <- app_assoc.
  - rewrite !merge_links, !filter_app, fresh_assoc. by rewrite <- app_assoc.
Qed.

(** X3. The empty graph is neutral: an empty response changes nothing, and a
    response merged into the empty graph is kept whole, in its order, its own
    repetitions included. *)
Theorem merge_empty (h : Heap) (G : GraphData) :
  merge h G {| nodes := []; links := [] |} = G ∧
  merge h {| nodes := []; links := [] |} G = G.
Proof.
  split; apply graph_eq.
  - by rewrite merge_nodes, app_nil_r.
  - by rewrite merge_links, app_nil_r.
  - rewrite merge_nodes. simpl. induction (nodes G) as [|a l IH]; [done|].
    rewrite filter_cons_True; [by rewrite IH|]. apply not_elem_of_nil.
  - rewrite merge_links. simpl. induction (links G) as [|a l IH]; [done|].
    rewrite filter_cons_True; [by rewrite IH|]. apply not_elem_of_nil.
Qed.

(** X4. Unique ids are kept: when no two nodes of the graph share an id and
    no two nodes of the response do, no two nodes of the merged graph do; the
    same for the keys of links. *)
Theorem merge_keeps_ids_unique (h : Heap) (cur inc : GraphData) :
  NoDup (nodeId h <$> nodes cur) → NoDup (nodeId h <$> nodes inc) →
  NoDup (linkKey h <$> links cur) → NoDup (linkKey h <$> links inc) →
  NoDup (nodeId h <$> nodes (merge h cur inc)) ∧
  NoDup (linkKey h <$> links (merge h cur inc)).
Proof.
  intros Hn Hn' Hl Hl'. rewrite merge_nodes, merge_links.
  split; by apply fresh_NoDup.
Qed.

Lemma merge_keeps_ids_unique_witness :
  NoDup (nodeId scenarioHeap
           <$> nodes (merge scenarioHeap scenarioExisting scenarioIncoming)) ∧
  NoDup (linkKey scenarioHeap
           <$> links (merge scenarioHeap scenarioExisting scenarioIncoming)).
Proof.
  apply merge_keeps_ids_unique; vm_compute;
    repeat (constructor; [by (intros H; repeat (apply elem_of_cons in H as [H|H]; [discriminate|]); by apply not_elem_of_nil in H)|]);
    constructor.
Defined.

(** X5. The ids of the merged graph are the ids of the graph and the ids of
    the response, no more and no fewer. *)
Theorem merge_ids (h : Heap) (cur inc : GraphData) (i : string) :
  i ∈ nodeId h <$> nodes (merge h cur inc)
  ↔ i ∈ nodeId h <$> nodes cur ∨ i ∈ nodeId h <$> nodes inc.
Proof.
  rewrite merge_nodes, fmap_app, elem_of_app. split.
  - intros [Hi|Hi]; [by left|]. right.
    apply list_elem_of_fmap in Hi as (r & -> & Hr).
    apply list_elem_of_filter in Hr as [_ Hr]. by apply list_elem_of_fmap_2.
  - intros [Hi|Hi]; [by left|].
    destruct (decide (i ∈ nodeId h <$> nodes cur)) as [|Hfresh]; [by left|].
    right. apply list_elem_of_fmap in Hi as (r & -> & Hr).
    apply list_elem_of_fmap_2, list_elem_of_filter. done.
Qed.

(** X6. A merge reads of the objects only the ids: on two heaps that give
    the nodes the same ids and the links the same keys, where the nodes have
    moved or been pinned or the endpoints of links been resolved to node
    objects, it returns the same graph. *)
Theorem merge_reads_ids_only (h h' : Heap) (cur inc : GraphData) :
  (∀ r, r ∈ nodes cur ++ nodes inc → nodeId h r = nodeId h' r) →
  (∀ l, l ∈ links cur ++ links inc → linkKey h l = linkKey h' l) →
  merge h cur inc = merge h' cur inc.
Proof.
  intros Hid Hkey.
  assert (Hids : nodeId h <$> nodes cur = nodeId h' <$> nodes cur).
  { apply list_fmap_ext. intros i r Hr. apply Hid, elem_of_app. left.
    by apply list_elem_of_lookup_2 in Hr. }
  assert (Hkeys : linkKey h <$> links cur = linkKey h' <$> links cur).
  { apply list_fmap_ext. intros i l Hl. apply Hkey, elem_of_app. left.
    by apply list_elem_of_lookup_2 in Hl. }
  apply graph_eq.
  - rewrite !merge_nodes. f_equal. apply filter_agree. intros r Hr.
    rewrite Hids, (Hid r); [done|]. apply elem_of_app. by right.
  - rewrite !merge_links. f_equal. apply filter_agree. intros l Hl.
    rewrite Hkeys, (Hkey l); [done|]. apply elem_of_app. by right.
Qed.

(** The heap of the scenario before and after a pin and a resolution of
    endpoints. *)
Lemma merge_reads_ids_only_witness :
  merge scenarioHeap scenarioExisting scenarioIncoming'
  = merge MoreExamples.scenarioHeapLater scenarioExisting scenarioIncoming'.
Proof.
  apply merge_reads_ids_only.
  - intros r Hr. vm_compute in Hr.
    repeat (apply elem_of_cons in Hr as [->|Hr]; [vm_compute; reflexivity|]).
    by apply not_elem_of_nil in Hr.
  - intros l Hl. vm_compute in Hl.
    repeat (apply elem_of_cons in Hl as [->|Hl]; [vm_compute; reflexivity|]).
    by apply not_elem_of_nil in Hl.
Defined.

End MergeAlgebra.

(** ** Neighbours *)

Section HighlightTheorems.
Import Store Physics Highlight Spec Examples MoreExamples.

(** One turn of the loop adds the other end of the link, if the link has an
    end at [n]. *)
Lemma visit_spec (h : Heap) (n t : string) (acc : gset string) (l : lref) :
  t ∈ visit h n acc l ↔
  t ∈ acc ∨ (linkSourceId h l = n ∧ linkTargetId h l = t)
          ∨ (linkTargetId h l = n ∧ linkSourceId h l = t).
Proof.
  unfold visit.
  destruct (String.eqb_spec (linkSourceId h l) n) as [Hs|Hs],
           (String.eqb_spec (linkTargetId h l) n) as [Ht|Ht];
    rewrite ?elem_of_union, ?elem_of_singleton; intuition congruence.
Qed.

(** What the loop has collected after the links [ls], from [acc] on. *)
Lemma highlight_fold (h : Heap) (n t : string) (ls : list lref)
    (acc : gset string) :
  t ∈ foldl (visit h n) acc ls ↔
  t ∈ acc ∨
  ∃ l, l ∈ ls ∧
       ((linkSourceId h l = n ∧ linkTargetId h l = t) ∨
        (linkTargetId h l = n ∧ linkSourceId h l = t)).
Proof.
  revert acc. induction ls as [|l ls IH]; intros acc; simpl.
  - split; [by left|]. intros [?|(l & Hl & _)]; [done|].
    by apply not_elem_of_nil in Hl.
  - rewrite IH, visit_spec. split.
    + intros [[Hacc|Hl]|(l' & Hl' & Hcase)]; [by left| |].
      * right. exists l. split; [by left|done].
      * right. exists l'. split; [by right|done].
    + intros [Hacc|(l' & Hl' & Hcase)]; [by left; left|].
      apply elem_of_cons in Hl' as [->|Hl']; [by left; right|].
      right. eauto.
Qed.

(** X7. [highlightConnections(n)] is the set of the ids at the other end of
    a link that starts or ends at [n]: nothing for an id on no link, and [n]
    itself only for a link from [n] to [n]. *)
Theorem highlightConnections_neighbours (h : Heap) (e : PhysicsEngine)
    (n t : string) :
  t ∈ highlightConnections h e n ↔
  ∃ l, l ∈ links e ∧
       ((linkSourceId h l = n ∧ linkTargetId h l = t) ∨
        (linkTargetId h l = n ∧ linkSourceId h l = t)).
Proof.
  unfold highlightConnections. rewrite highlight_fold. split.
  - intros [Hempty|Hl]; [by apply not_elem_of_empty in Hempty|done].
  - by right.
Qed.

(** X8. Being connected is symmetric: [t] is highlighted for [n] exactly
    when [n] is highlighted for [t], whatever the direction of the link. *)
Theorem highlightConnections_symmetric (h : Heap) (e : PhysicsEngine)
    (n t : string) :
  t ∈ highlightConnections h e n ↔ n ∈ highlightConnections h e t.
Proof.
  unfold highlightConnections. rewrite !highlight_fold.
  split; (intros [Hempty|(l & Hl & Hcase)];
    [by apply not_elem_of_empty in Hempty|]);
    right; exists l; (split; [done|]); tauto.
Qed.

(** X9. A merge only adds neighbours: with the engine bound to the graph
    before and after a merge, every id highlighted before is highlighted
    after. *)
Theorem highlightConnections_grow_with_merge (h : Heap) (cur inc : GraphData)
    (e e' : PhysicsEngine) (n : string) :
  links e = Store.links cur →
  links e' = Store.links (merge h cur inc) →
  highlightConnections h e n ⊆ highlightConnections h e' n.
Proof.
  intros He He' t. unfold highlightConnections.
  rewrite !highlight_fold, He, He', merge_links.
  intros [Hempty|(l & Hl & Hcase)]; [by left|].
  right. exists l. split; [|done]. apply elem_of_app. by left.
Qed.

Lemma highlightConnections_grow_with_merge_witness :
  highlightConnections scenarioHeap (engineOf scenarioExisting) "A"
  ⊆ highlightConnections scenarioHeap
      (engineOf (merge scenarioHeap scenarioExisting scenarioIncoming)) "A".
Proof.
  apply (highlightConnections_grow_with_merge scenarioHeap scenarioExisting
           scenarioIncoming); reflexivity.
Defined.

(** In the scenario A has the neighbour B before the merge and the
    neighbours B and C after it. *)
Example highlightConnections_scenario :
  highlightConnections scenarioHeap (engineOf scenarioExisting) "A"
  = {["B"%string]} ∧
  highlightConnections scenarioHeap
    (engineOf (merge scenarioHeap scenarioExisting scenarioIncoming)) "A"
  = {["B"%string; "C"%string]}.
Proof. split; apply set_eq; intros t; vm_compute; tauto. Qed.

End HighlightTheorems.

(** ** Centering, again *)

Section CenterTheorems.
Import Store Physics Examples.

Lemma hasId_write_pins (h : Heap) (r : nref) (a b : Pin) (n : string)
    (r' : nref) :
  hasId (write_pins r a b h) n r' = hasId h n r'.
Proof.
  unfold hasId, write_pins; simpl.
  destruct (decide (r = r')) as [->|Hne].
  - rewrite lookup_alter_eq. by destruct (nodeObjs h !! r').
  - by rewrite lookup_alter_ne.
Qed.

Lemma find_ext {A} (f g : A → bool) (l : list A) :
  (∀ a, f a = g a) → List.find f l = List.find g l.
Proof.
  intros Hfg. induction l as [|a l IH]; simpl; [done|].
  by rewrite Hfg, IH.
Qed.

(** X10. [centerNode] touches one object only.  For an id that no node of
    the working set has, nothing changes at all; otherwise the first node
    with that id gets its two pin fields set and keeps every other field,
    every other node object, a later node with the same id included, and
    every link object is as before, and one timer is added. *)
Theorem centerNode_frame (w : World) (nodeId : string) :
  let w1 := centerNode nodeId w in
  match List.find (hasId (heap w) nodeId) (nodes (engine w)) with
  | None => w1 = w
  | Some node =>
      nodeObjs (heap w1) !! node
      = set_pins (PinAt (Num 0)) (PinAt (Num 0)) <$> nodeObjs (heap w) !! node ∧
      (∀ r, r ≠ node → nodeObjs (heap w1) !! r = nodeObjs (heap w) !! r) ∧
      linkObjs (heap w1) = linkObjs (heap w) ∧
      nodes (engine w1) = nodes (engine w) ∧
      links (engine w1) = links (engine w) ∧
      timers w1 = timers w ++ [ {| due := clock w + unpinDelay;
                                   callback := Unpin node |} ]
  end.
Proof.
  cbv zeta. unfold centerNode.
  destruct (List.find _ _) as [node|]; [|done]. simpl.
  split; [apply lookup_alter_eq|]. split; [|done].
  intros r Hr. by apply lookup_alter_ne.
Qed.

(** X11. Centered on an engine with no timer pending, the node stays pinned
    at the origin for the whole delay: at any time before 1000 ms have
    passed its pin fields are still 0. *)
Theorem centerNode_holds_for_the_delay (w : World) (nodeId : string)
    (node : nref) (dt : nat) :
  List.find (hasId (heap w) nodeId) (nodes (engine w)) = Some node →
  timers w = [] → dt < unpinDelay →
  pins (advance dt (centerNode nodeId w)) node
  = Some (PinAt (Num 0), PinAt (Num 0)).
Proof. apply centerNode_pinned_until_delay. Qed.

Lemma centerNode_holds_for_the_delay_witness :
  pins (advance 999 (centerNode "A" twoNodeWorld)) 0
  = Some (PinAt (Num 0), PinAt (Num 0)).
Proof.
  apply (centerNode_holds_for_the_delay twoNodeWorld "A" 0 999).
  - vm_compute. reflexivity.
  - reflexivity.
  - vm_compute. lia.
Defined.

(** X12. Timers are never cancelled.  A node centered again [d] ms after it
    was centered, with [d] under 1000, is pinned again, and is released by
    the timer of the first call: [1000 - d] ms after the second call its pin
    fields are null. *)
Theorem recentered_node_is_released_early (w : World) (nodeId : string)
    (node : nref) (d : nat) :
  List.find (hasId (heap w) nodeId) (nodes (engine w)) = Some node →
  timers w = [] → d < unpinDelay →
  let w2 := centerNode nodeId (advance d (centerNode nodeId w)) in
  pins w2 node = Some (PinAt (Num 0), PinAt (Num 0)) ∧
  pins (advance (unpinDelay - d) w2) node = Some (PinNull, PinNull).
Proof.
  intros Hfind Hts Hd. cbv zeta.
  pose proof Hfind as Hobj. apply find_some in Hobj as [_ Hobj].
  assert (Hsome : is_Some (nodeObjs (heap w) !! node)).
  { unfold hasId in Hobj. destruct (nodeObjs (heap w) !! node); [eauto|done]. }
  assert (Hw1 : advance d (centerNode nodeId w)
    = {| heap := write_pins node (PinAt (Num 0)) (PinAt (Num 0)) (heap w);
         engine := with_simulation (λ s, sim_restart (sim_alpha (3 # 10) s))
                     (engine w);
         clock := clock w + d;
         timers := [ {| due := clock w + unpinDelay;
                        callback := Unpin node |} ] |}).
  { unfold centerNode. rewrite Hfind, Hts. unfold advance; simpl.
    rewrite (proj2 (Nat.leb_gt _ _)) by lia. done. }
  rewrite Hw1. unfold centerNode at 1 2; simpl.
  rewrite (find_ext _ (hasId (heap w) nodeId))
    by (intros r; apply hasId_write_pins).
  rewrite Hfind. split.
  - unfold pins; simpl. apply pinsIn_write_same.
    unfold write_pins; simpl. rewrite lookup_alter_eq.
    destruct Hsome as [n ->]. simpl. eauto.
  - unfold advance, pins. cbn [heap clock timers app].
    match goal with |- context [fire ?t ?ts ?h] =>
      pose proof (fire_clears t ts h node
                    {| due := clock w + unpinDelay; callback := Unpin node |})
        as Hfire;
      destruct (fire t ts h) as [h' ts'] end.
    cbn [heap fst] in *. apply Hfire; [by left | simpl; lia | done |].
    rewrite pinsIn_write_same; [eauto|].
    unfold write_pins; simpl. rewrite lookup_alter_eq.
    destruct Hsome as [n ->]. simpl. eauto.
Qed.

Lemma recentered_node_is_released_early_witness :
  let w2 := centerNode "A" (advance 400 (centerNode "A" twoNodeWorld)) in
  pins w2 0 = Some (PinAt (Num 0), PinAt (Num 0)) ∧
  pins (advance (unpinDelay - 400) w2) 0 = Some (PinNull, PinNull).
Proof.
  apply (recentered_node_is_released_early twoNodeWorld "A" 0 400).
  - vm_compute. reflexivity.
  - reflexivity.
  - vm_compute. lia.
Defined.

End CenterTheorems.

(** ** Hit test and radius *)

Section HitTheorems.
Import Store Canvas Spec Vocabulary Examples.

(** X13. [getNodeAt] scans the node array in its order: it returns [r]
    exactly when [r] passes the test and no node before it in the array
    does, and it returns nothing exactly when no node of the array passes;
    so nothing on an empty graph. *)
Theorem getNodeAt_first_in_array_order (sc : Scene) (v : View) (cx cy : num) :
  let test := hitsRef (heap sc) (dimensions sc) v
                {| px := (cx - left (rect sc))%js;
                   py := (cy - top (rect sc))%js |} in
  (∀ r, getNodeAt sc v cx cy = Some r ↔
        ∃ before after, graphNodes sc = before ++ r :: after ∧
                        test r = true ∧
                        Forall (λ r', test r' = false) before) ∧
  (getNodeAt sc v cx cy = None ↔
   Forall (λ r, test r = false) (graphNodes sc)) ∧
  (graphNodes sc = [] → getNodeAt sc v cx cy = None).
Proof.
  cbv zeta. split; [|split].
  - intros r. apply getNodeAt_first.
  - apply getNodeAt_none.
  - intros Hempty. apply getNodeAt_none. rewrite Hempty. constructor.
Qed.

Lemma clamp_range (lo hi : Q) (a : num) :
  (lo <= hi)%Q → is_NaN a = false →
  ∃ q, max (Num lo) (min (Num hi) a) = Num q ∧ (lo <= q)%Q ∧ (q <= hi)%Q.
Proof.
  intros Hle HNaN.
  destruct a as [q| | |]; try discriminate; unfold min, max, lt.
  - destruct (Qle_bool hi q) eqn:Hhi; simpl.
    + destruct (Qle_bool hi lo) eqn:Hlo; simpl.
      * exists lo. apply Qle_bool_iff in Hlo. repeat split; lra.
      * exists hi. repeat split; lra.
    + destruct (Qle_bool q lo) eqn:Hlo; simpl.
      * exists lo. repeat split; lra.
      * exists q.
        assert (¬ (hi <= q)%Q) by (rewrite <- Qle_bool_iff; congruence).
        assert (¬ (q <= lo)%Q) by (rewrite <- Qle_bool_iff; congruence).
        repeat split; lra.
  - simpl. destruct (Qle_bool hi lo) eqn:Hlo; simpl.
    + exists lo. apply Qle_bool_iff in Hlo. repeat split; lra.
    + exists hi. repeat split; lra.
  - simpl. exists lo. repeat split; lra.
Qed.

Lemma zoomScaling_cases (k : num) :
  (is_NaN k = true ∧ zoomScaling k = NaN) ∨
  ∃ q, zoomScaling k = Num q ∧ (0.8 <= q)%Q ∧ (q <= 1.4)%Q.
Proof.
  destruct (is_NaN k) eqn:HNaN.
  - left. by destruct k.
  - right. unfold zoomScaling.
    destruct (clamp_range 0.5 2 k) as (q & -> & Hlo & Hhi); [lra|done|].
    simpl. eexists. split; [reflexivity|]. split; lra.
Qed.

(** X14. The radius of a node follows the zoom only a little: whatever the
    scale of the view, every infinity included, the factor applied to the
    radius is between 0.8 and 1.4. *)
Theorem zoomScaling_range (k : num) :
  is_NaN k = false → within 0.8 1.4 (zoomScaling k).
Proof.
  intros HNaN. destruct (zoomScaling_cases k) as [[Hk _]|(q & -> & Hq)].
  - congruence.
  - exact Hq.
Qed.

Lemma zoomScaling_range_witness : within 0.8 1.4 (zoomScaling PInf).
Proof. apply zoomScaling_range. reflexivity. Defined.

Lemma lt_Num_mono (d : num) (a b : Q) :
  (d <? Num a)%js = true → (a <= b)%Q → (d <? Num b)%js = true.
Proof.
  destruct d as [q| | |]; simpl; try done.
  intros Hlt Hab. apply negb_true_iff in Hlt. apply negb_true_iff.
  destruct (Qle_bool b q) eqn:Hbq; [|done].
  apply Qle_bool_iff in Hbq.
  assert (¬ (a <= q)%Q) by (rewrite <- Qle_bool_iff; congruence). lra.
Qed.

Lemma baseRadius_finite (t : NodeType) :
  ∃ q, baseRadius t = Num q ∧ (0 <= q)%Q.
Proof. destruct t; simpl; eexists; (split; [reflexivity|lra]). Qed.

(** The radius the renderer starts from, bonus included, is a number not
    under the base radius. *)
Lemma radiusScaled_cases (node : Node) (k : num) :
  authorsNotNegative node →
  ∃ qb qr, baseRadius (type node) = Num qb ∧
           radiusScaled node k = (Num qr * zoomScaling k)%js ∧
           (0 <= qb)%Q ∧ (qb <= qr)%Q.
Proof.
  unfold authorsNotNegative, radiusScaled. intros Hc.
  destruct (baseRadius_finite (type node)) as (qb & -> & Hqb).
  exists qb.
  destruct (author_count node) as [c|]; [|exists qb; repeat split; [done|lra]].
  destruct c as [q| | |]; simpl in *; try discriminate.
  - destruct (Qeq_bool q 0); simpl; [exists qb; repeat split; [done|lra]|].
    apply negb_false_iff, Qle_bool_iff in Hc.
    unfold min, lt. destruct (Qle_bool (q * 0.5) 8) eqn:H8; simpl.
    + eexists. repeat split; [done|lra].
    + eexists. repeat split; [done|lra].
  - eexists. repeat split; [done|lra].
  - exists qb. repeat split; [done|lra].
Qed.

(** X15. The hit test never reaches beyond what is drawn: for a node whose
    author count is absent or not negative, a pointer that passes the test
    of [getNodeAt] is nearer to the node than the radius the renderer gives
    it, plus 5. *)
Theorem hit_is_within_render_radius (dims : Dimensions) (v : View)
    (p : Point) (node : Node) (ax ay : num) :
  x node = Some ax → y node = Some ay →
  orZero (x node) = ax → orZero (y node) = ay →
  authorsNotNegative node →
  hits dims v p node = true →
  withinRenderRadius dims v p node = true.
Proof.
  intros Hx Hy Hox Hoy Hauthors.
  unfold hits, withinRenderRadius, screenDistance, screenPos, radiusScaled.
  rewrite Hox, Hoy, Hx, Hy. simpl px. simpl py.
  generalize (sqrt
    ((px p - (width dims / Num 2 + tx v + ax * k v)) *
     (px p - (width dims / Num 2 + tx v + ax * k v)) +
     (py p - (height dims / Num 2 + ty v + ay * k v)) *
     (py p - (height dims / Num 2 + ty v + ay * k v)))%js).
  intros d.
  destruct (radiusScaled_cases node (k v) Hauthors)
    as (qb & qr & Hb & Hr & Hqb & Hqr).
  unfold radiusScaled in Hr. rewrite Hr, Hb.
  destruct (zoomScaling_cases (k v)) as [[_ ->]|(qs & -> & Hlo & Hhi)].
  - simpl. by destruct d.
  - simpl. intros Hlt. apply (lt_Num_mono d _ _ Hlt). nra.
Qed.

Lemma hit_is_within_render_radius_witness :
  withinRenderRadius initialDimensions initialView
    {| px := Num 415; py := Num 324 |}
    (placedNode "B" cited (Some (Num 16)) 10 20) = true.
Proof.
  apply (hit_is_within_render_radius _ _ _ _ (Num 10) (Num 20));
    vm_compute; reflexivity.
Defined.

End HitTheorems.

(** ** Gestures *)

Section GestureTheorems.
Import Store Canvas Spec Vocabulary Examples MoreExamples.

Lemma div_finite (a b : Q) :
  ¬ (b == 0)%Q → (Num a / Num b)%js = Num (a / b).
Proof.
  intros Hb. simpl. destruct (Qeq_bool b 0) eqn:E; [|done].
  by apply Qeq_bool_iff in E.
Qed.



(** After a run of wheel events the frame of the last one is the one
    waiting, the deltas are added up and the view is as it was. *)
Lemma wheel_run (exp : num → num) (ws : list (Scene * WheelEvent))
    (sc : Scene) (e : WheelEvent) (g : Refs) :
  let g' := run exp (wheelEvents (ws ++ [(sc, e)])) g in
  view g' = view g ∧
  pendingWheelDelta g' = totalDeltaY (pendingWheelDelta g) (ws ++ [(sc, e)]) ∧
  raf g' = Some (WheelFrame e).
Proof.
  cbv zeta. revert g. induction ws as [|[sc' e'] ws IH]; intros g.
  - simpl. unfold handleWheel. by destruct (negb _).
  - simpl. destruct (IH (handleWheel e' g)) as (Hv & Hp & Hr).
    rewrite Hv, Hp, Hr. unfold handleWheel. by destruct (negb _).
Qed.

(** X17. Wheel events are coalesced: however many arrive before the next
    animation frame, that frame makes one zoom step, with the sum of their
    deltas and at the pointer position of the last of them, and sets the
    sum back to 0; a frame with no event before it changes nothing. *)
Theorem wheel_events_coalesce (exp : num → num)
    (ws : list (Scene * WheelEvent)) (sc0 : Scene) (e : WheelEvent)
    (sc : Scene) (g : Refs) :
  let total := totalDeltaY (pendingWheelDelta g) (ws ++ [(sc0, e)]) in
  let g' := run exp (wheelEvents (ws ++ [(sc0, e)]) ++ [(sc, AnimationFrame)])
              g in
  view g' = view (wheelFrame exp sc e (set_pendingWheelDelta total g)) ∧
  pendingWheelDelta g' = Num 0 ∧
  raf g' = None ∧
  step exp sc AnimationFrame g' = g'.
Proof.
  cbv zeta. rewrite run_app.
  destruct (wheel_run exp ws sc0 e g) as (Hv & Hp & Hr).
  remember (run exp (wheelEvents (ws ++ [(sc0, e)])) g) as g1 eqn:Hg1.
  clear Hg1. cbn [run step].
  assert (Hframe : animationFrame exp sc g1
                   = wheelFrame exp sc e (set_raf None g1))
    by (unfold animationFrame; by rewrite Hr).
  rewrite Hframe. repeat split; try done.
  unfold wheelFrame. cbn [view pendingWheelDelta set_raf
    set_pendingWheelDelta set_view]. by rewrite Hv, Hp.
Qed.

Lemma clamp_value (x : Q) :
  max (Num 0.3) (min (Num 5) (Num x))
  = Num (if Qle_bool 5 x then 5
         else if Qle_bool x 0.3 then 0.3 else x)%Q.
Proof.
  unfold min, max, lt. destruct (Qle_bool 5 x); simpl; [done|].
  by destruct (Qle_bool x 0.3).
Qed.

Lemma Qle_bool_false (a b : Q) : Qle_bool a b = false ↔ (b < a)%Q.
Proof.
  split.
  - intros H. apply Qnot_le_lt. rewrite <- Qle_bool_iff. congruence.
  - intros H. destruct (Qle_bool a b) eqn:E; [|done].
    apply Qle_bool_iff in E. lra.
Qed.

(** One zoom step with the factor [exp (- d * c)], [c] a positive
    sensitivity. *)
Lemma zoom_step_direction (exp : num → num) (kq d c : Q) :
  expSplitsAtOne exp → (0 < c)%Q → (0.3 <= kq)%Q → (kq <= 5)%Q →
  ¬ (d == 0)%Q →
  ∃ kq', max (Num 0.3) (min (Num 5) (Num kq * exp (- Num d * Num c)))%js
         = Num kq' ∧
         ((d < 0)%Q → (kq <= kq')%Q ∧ ((kq < 5)%Q → (kq < kq')%Q)) ∧
         ((0 < d)%Q → (kq' <= kq)%Q ∧ ((0.3 < kq)%Q → (kq' < kq)%Q)).
Proof.
  intros [Hup Hdown] Hc Hlo Hhi Hd. simpl neg. simpl mul.
  destruct (Qlt_le_dec d 0) as [Hneg|Hnn].
  - specialize (Hup (- d * c)%Q). 
    assert (0 < - d * c)%Q as Hpos by nra. specialize (Hup Hpos).
    destruct (exp (Num (- d * c))) as [f| | |]; simpl in Hup; try done.
    + apply negb_true_iff, Qle_bool_false in Hup.
      change (Num kq * Num f)%js with (Num (kq * f)). rewrite clamp_value.
      eexists. split; [reflexivity|].
      destruct (Qle_bool 5 (kq * f)) eqn:H5;
        [|destruct (Qle_bool (kq * f) 0.3) eqn:H3].
      * repeat split; intros; lra.
      * apply Qle_bool_iff in H3. nra.
      * apply Qle_bool_false in H5, H3. repeat split; intros; nra.
    + simpl. rewrite (within_positive kq Hlo). simpl.
      exists 5%Q. repeat split; intros; lra.
  - destruct (Qle_lt_or_eq _ _ Hnn) as [Hpos|Hzero].
    + destruct (Hdown (- d * c)%Q) as [Hlt Hge]; [nra|].
      destruct (exp (Num (- d * c))) as [f| | |]; simpl in Hlt, Hge; try done.
      apply negb_true_iff, Qle_bool_false in Hlt.
      apply negb_false_iff, Qle_bool_iff in Hge.
      change (Num kq * Num f)%js with (Num (kq * f)). rewrite clamp_value.
      eexists. split; [reflexivity|].
      destruct (Qle_bool 5 (kq * f)) eqn:H5;
        [|destruct (Qle_bool (kq * f) 0.3) eqn:H3].
      * apply Qle_bool_iff in H5. nra.
      * repeat split; intros; lra.
      * apply Qle_bool_false in H5, H3. repeat split; intros; nra.
    + exfalso. apply Hd. by symmetry.
Qed.

Lemma Qsquare_nonneg (q : Q) : (0 <= q * q)%Q.
Proof. unfold Qle, Qmult; simpl. nia. Qed.

Lemma expLower_up (q : Q) :
  (0 <= q)%Q → (0 <= 1 + q + q * q / 2)%Q ∧ ((0 < q)%Q → (1 < 1 + q + q * q / 2)%Q).
Proof.
  intros Hq. pose proof (Qsquare_nonneg q).
  unfold Qdiv. change (/ 2)%Q with (1 # 2)%Q. split; intros; lra.
Qed.

Lemma expLower_down (q : Q) :
  (q < 0)%Q →
  (0 <= 1 / (1 - q + q * q / 2))%Q ∧ (1 / (1 - q + q * q / 2) < 1)%Q.
Proof.
  intros Hq. pose proof (Qsquare_nonneg q).
  assert (1 < 1 - q + q * q / 2)%Q as HD
    by (unfold Qdiv; change (/ 2)%Q with (1 # 2)%Q; lra).
  split.
  - apply Qle_shift_div_l; lra.
  - apply Qlt_shift_div_r; lra.
Qed.

(** The rational lower bound of the exponential has what is used of
    [Math.exp]. *)
Lemma expLower_sane : expSane expLower.
Proof.
  intros [q| | |] HNaN; try done. unfold expLower.
  destruct (Qle_bool 0 q) eqn:Hq; simpl; (split; [done|]).
  - apply Qle_bool_iff in Hq. apply negb_false_iff, Qle_bool_iff.
    by apply expLower_up.
  - apply Qle_bool_false in Hq. apply negb_false_iff, Qle_bool_iff.
    by apply expLower_down.
Qed.

Lemma expLower_splits : expSplitsAtOne expLower.
Proof.
  split; intros q Hq; unfold expLower.
  - assert (Qle_bool 0 q = true) as -> by (apply Qle_bool_iff; lra).
    simpl. apply negb_true_iff, Qle_bool_false.
    apply expLower_up; [lra|done].
  - assert (Qle_bool 0 q = false) as -> by (by apply Qle_bool_false).
    simpl. split.
    + apply negb_true_iff, Qle_bool_false. by apply expLower_down.
    + apply negb_false_iff, Qle_bool_iff. by apply expLower_down.
Qed.



(** What wheel and mouse events keep: the scale in range, the accumulated
    delta finite, no touch frame waiting. *)
Lemma wheelOrMouse_step (exp : num → num) (sc : Scene) (ev : Event)
    (g : Refs) :
  expSane exp → wheelOrMouse ev →
  within 0.3 5 (k (view g)) ∧ finite (pendingWheelDelta g)
    ∧ (∀ ts, raf g ≠ Some (TouchFrame ts)) →
  within 0.3 5 (k (view (step exp sc ev g)))
    ∧ finite (pendingWheelDelta (step exp sc ev g))
    ∧ (∀ ts, raf (step exp sc ev g) ≠ Some (TouchFrame ts)).
Proof.
  intros Hexp Hev (Hk & [p Hp] & Hraf).
  assert (Hkeep : ∀ g', k (view g') = k (view g) →
            pendingWheelDelta g' = pendingWheelDelta g →
            raf g' = raf g ∨ raf g' = None →
            within 0.3 5 (k (view g')) ∧ finite (pendingWheelDelta g')
            ∧ (∀ ts, raf g' ≠ Some (TouchFrame ts))).
  { intros g' -> -> Hr. split; [done|]. split; [by exists p|].
    destruct Hr as [->| ->]; done. }
  destruct ev; unfold step.
  - destruct Hev as [q Hq]. unfold handleWheel.
    split; [by destruct (negb _)|]. split.
    + exists (p + q)%Q. destruct (negb _); simpl; by rewrite Hp, Hq.
    + intros ts. by destruct (negb _).
  - apply Hkeep; unfold wheelTimeoutFires; destruct (wheelTimeout g); auto.
  - unfold animationFrame. destruct (raf g) as [[e|ts]|] eqn:Hr.
    + split; [|split; [by exists 0%Q|done]].
      apply wheelFrame_scale_within; [done..|].
      cbn [pendingWheelDelta set_raf]. by rewrite Hp.
    + by destruct (Hraf ts).
    + apply Hkeep; auto.
  - apply Hkeep; unfold handleMouseDown; destruct (negb _); auto;
      destruct (getNodeAt _ _ _ _); auto.
  - apply Hkeep; unfold handleMouseMove; destruct (isPanning g); auto.
  - apply Hkeep; unfold handleMouseUp; destruct (isPanning g); auto.
  - apply Hkeep; unfold handleTouchStart;
      destruct touches as [|t1 [|t2 [|t3 ts]]]; auto;
      cbn [view]; destruct (getNodeAt _ _ _ _); auto.
  - done.
  - apply Hkeep; unfold handleTouchEnd;
      destruct remaining as [|t1 [|t2 ts]]; auto;
      destruct (_ =? 2); auto.
  - apply Hkeep; auto.
Qed.

(** X19. Wheel, trackpad and mouse gestures keep the scale in bounds: after
    any sequence of events with no touch move in it and with finite wheel
    deltas, the scale of the view is in [[0.3, 5]]. *)
Theorem wheel_and_mouse_keep_scale_in_bounds (exp : num → num)
    (evs : list (Scene * Event)) (e : Physics.PhysicsEngine) :
  expSane exp → Forall (λ se, wheelOrMouse se.2) evs →
  within 0.3 5 (k (view (run exp evs (initialRefs e)))).
Proof.
  intros Hexp Hevs.
  cut (within 0.3 5 (k (view (run exp evs (initialRefs e))))
       ∧ finite (pendingWheelDelta (run exp evs (initialRefs e)))
       ∧ (∀ ts, raf (run exp evs (initialRefs e)) ≠ Some (TouchFrame ts)));
    [tauto|].
  assert (Hinit : within 0.3 5 (k (view (initialRefs e)))
                  ∧ finite (pendingWheelDelta (initialRefs e))
                  ∧ (∀ ts, raf (initialRefs e) ≠ Some (TouchFrame ts))).
  { split; [simpl; lra|]. split; [by eexists|done]. }
  revert Hinit. generalize (initialRefs e).
  induction Hevs as [|[sc ev] evs Hev _ IH]; intros g Hg; [done|].
  simpl. apply IH. by apply wheelOrMouse_step.
Qed.

Lemma wheel_and_mouse_keep_scale_in_bounds_witness :
  within 0.3 5
    (k (view (run expLower (panRight ++ wheelZoom)
                (initialRefs Physics.newEngine)))).
Proof.
  apply wheel_and_mouse_keep_scale_in_bounds.
  - exact expLower_sane.
  - repeat constructor. simpl. by eexists.
Defined.

Lemma dom_forget (changed : list Touch) (m : gmap nat Point) :
  dom (foldl (λ m t, delete (identifier t) m) m changed)
  = dom m ∖ list_to_set (identifier <$> changed).
Proof.
  revert m. induction changed as [|t ts IH]; intros m; simpl.
  - by rewrite difference_empty_L.
  - rewrite IH, dom_delete_L. apply set_eq. intros i.
    rewrite !elem_of_difference, elem_of_union, elem_of_singleton. tauto.
Qed.

(** X20. With the touches tracked as they are, the branch of
    [handleTouchEnd] for the change from two fingers to one is never taken:
    when the ids in [touchesRef] are those of the finger that stays and of
    the fingers lifted, the handler forgets the lifted ones and leaves the
    pinch distance, the view, the pan and interaction flags and the engine
    as they are. *)
Theorem touch_end_to_one_finger_changes_tracking_only (t : Touch)
    (changed : list Touch) (g : Refs) :
  dom (touchesRef g) = list_to_set (identifier <$> t :: changed) →
  identifier t ∉ identifier <$> changed →
  let g' := handleTouchEnd [t] changed g in
  dom (touchesRef g') = {[identifier t]} ∧
  g' = set_touchesRef (touchesRef g') g.
Proof.
  intros Hdom Hfresh. cbv zeta. unfold handleTouchEnd.
  cbn [touchesRef set_touchesRef].
  assert (Hdom' : dom (foldl (λ m t0, delete (identifier t0) m)
                         (touchesRef g) changed) = {[identifier t]}).
  { apply set_eq. intros i.
    rewrite dom_forget, Hdom, fmap_cons, list_to_set_cons.
    rewrite elem_of_difference, elem_of_union, elem_of_singleton,
      elem_of_list_to_set.
    split; [tauto|]. intros ->. split; [by left|done]. }
  assert (Hsize : size (foldl (λ m t0, delete (identifier t0) m)
                          (touchesRef g) changed) = 1).
  { rewrite <- size_dom, Hdom'. apply size_singleton. }
  rewrite Hsize. simpl. done.
Qed.

Lemma touch_end_to_one_finger_changes_tracking_only_witness :
  let g' := handleTouchEnd [leftFinger] [rightFinger] pinchingRefs in
  dom (touchesRef g') = {[identifier leftFinger]} ∧
  g' = set_touchesRef (touchesRef g') pinchingRefs.
Proof.
  apply (touch_end_to_one_finger_changes_tracking_only leftFinger
           [rightFinger] pinchingRefs).
  - apply set_eq. intros i. vm_compute. tauto.
  - vm_compute. intros H. apply list_elem_of_singleton in H. discriminate.
Defined.

(** X21. Two fingers moved together do not move the view: a pinch frame in
    which the fingers are as far apart as in the frame before leaves the
    scale and the translate as they are, wherever the fingers have gone. *)
Theorem pinch_without_spread_keeps_view (sc : Scene) (t1 t2 : Touch)
    (g : Refs) (d : Q) :
  finiteView (view g) → within 0.3 5 (k (view g)) → finiteScene sc →
  finite (clientX t1) → finite (clientY t1) →
  finite (clientX t2) → finite (clientY t2) →
  touchDistance t1 t2 = Num d → ¬ (d == 0)%Q →
  lastPinchDistance g = Num d →
  viewEquiv (view (touchFrame sc [t1; t2] g)) (view g).
Proof.
  intros ([kq Hk] & [t Ht] & [u Hu]) Hin ([L HL] & [T HT] & [W HW] & [H HH])
    [x1 Hx1] [y1 Hy1] [x2 Hx2] [y2 Hy2] Hdist Hd Hlast.
  rewrite Hk in Hin. destruct Hin as [Hlo Hhi].
  unfold touchFrame, viewEquiv.
  cbn [view k tx ty set_view set_lastPinchDistance].
  rewrite Hdist, Hlast, Hk, Ht, Hu, HL, HT, HW, HH, Hx1, Hy1, Hx2, Hy2.
  rewrite (div_finite d d Hd).
  change (Num kq * Num (d / d))%js with (Num (kq * (d / d))).
  rewrite clamp_value.
  assert (Hx : (kq * (d / d) == kq)%Q) by (field; done).
  set (kn := (if Qle_bool 5 (kq * (d / d)) then 5
              else if Qle_bool (kq * (d / d)) 0.3 then 0.3
                   else kq * (d / d))%Q).
  assert (Hkn : (kn == kq)%Q).
  { unfold kn. destruct (Qle_bool 5 (kq * (d / d))) eqn:H5;
      [|destruct (Qle_bool (kq * (d / d)) 0.3) eqn:H3].
    - apply Qle_bool_iff in H5. lra.
    - apply Qle_bool_iff in H3. lra.
    - done. }
  assert (Hkq : ¬ (kq == 0)%Q) by lra.
  rewrite (div_finite kn kq Hkq). simpl.
  split; [done|]. split.
  - rewrite Hkn. field. done.
  - rewrite Hkn. field. done.
Qed.

Lemma pinch_without_spread_keeps_view_witness :
  viewEquiv
    (view (touchFrame emptyScene [leftFingerMoved; rightFingerMoved]
             pinchingRefs))
    (view pinchingRefs).
Proof.
  eapply (pinch_without_spread_keeps_view emptyScene leftFingerMoved
            rightFingerMoved pinchingRefs).
  - repeat split; eexists; reflexivity.
  - vm_compute. split; discriminate.
  - repeat split; eexists; reflexivity.
  - eexists; reflexivity.
  - eexists; reflexivity.
  - eexists; reflexivity.
  - eexists; reflexivity.
  - vm_compute. reflexivity.
  - vm_compute. discriminate.
  - vm_compute. reflexivity.
Defined.



End GestureTheorems.

(** ** What is drawn *)

Section RenderTheorems.
Import Store Canvas Render Spec Vocabulary Examples MoreExamples.

Lemma find_hasId_none (h : Heap) (s : string) (ns : list nref) :
  s ∉ nodeId h <$> ns → List.find (Physics.hasId h s) ns = None.
Proof.
  induction ns as [|r ns IH]; simpl; [done|].
  rewrite not_elem_of_cons. intros [Hr Hns].
  unfold Physics.hasId at 1. unfold nodeId in Hr.
  destruct (nodeObjs h !! r) as [n|]; [|by apply IH].
  destruct (String.eqb_spec (id n) s) as [Heq|_]; [by destruct Hr|].
  by apply IH.
Qed.

(** X23. A dangling link is never drawn: a link with a raw id at one end
    that is the id of no node of the graph makes the link loop return
    early, whatever the view and the selection. *)
Theorem dangling_link_is_not_drawn (sc : Scene) (selectedPaper : option string)
    (g : Refs) (l : lref) (link : Link) (s : string) :
  linkObjs (heap sc) !! l = Some link →
  source link = EId s ∨ target link = EId s →
  s ∉ nodeId (heap sc) <$> graphNodes sc →
  renderLinkRef sc selectedPaper g l = None.
Proof.
  intros Hl Hend Hs. unfold renderLinkRef, renderLink. rewrite Hl.
  destruct Hend as [-> | ->]; simpl; rewrite (find_hasId_none _ _ _ Hs).
  - done.
  - by destruct (endpointNode _ _ _).
Qed.

Lemma dangling_link_is_not_drawn_witness :
  renderLinkRef danglingScene None freshRefs 1 = None.
Proof.
  apply (dangling_link_is_not_drawn danglingScene None freshRefs 1
           {| source := EId "A"; target := EId "Z"; ltype := CITES |} "Z").
  - vm_compute. reflexivity.
  - by right.
  - vm_compute. intros H.
    repeat (apply elem_of_cons in H as [H|H]; [discriminate|]).
    by apply not_elem_of_nil in H.
Defined.

(** Of the two links of that graph only A→B is stroked. *)
Example dangling_scene_strokes :
  length (renderLinks danglingScene [0; 1] None freshRefs) = 1.
Proof. vm_compute. reflexivity. Qed.

(** X24. When links are drawn at all.  With a finite scale [k] the link loop
    runs exactly when [k] is over 0.8, or when no zoom is under way and [k]
    is at least 0.5; otherwise the frame has no link. *)
Theorem links_drawn_iff (sc : Scene) (links : list lref)
    (selectedPaper : option string) (g : Refs) (kq : Q) :
  k (view g) = Num kq →
  (linksRendered g = true ↔
   (0.8 < kq)%Q ∨ (isZooming g = false ∧ (0.5 <= kq)%Q)) ∧
  (linksRendered g = false → renderLinks sc links selectedPaper g = []).
Proof.
  intros Hk. split.
  - unfold linksRendered, skipDetails, gt. rewrite Hk. simpl.
    destruct (Qle_bool 0.5 kq) eqn:H5;
      [apply Qle_bool_iff in H5|apply Qle_bool_false in H5];
      (destruct (Qle_bool kq 0.8) eqn:H8;
       [apply Qle_bool_iff in H8|apply Qle_bool_false in H8]);
      destruct (isZooming g); simpl;
      (split; [intros Hdrawn|intros [Hk8|[Hz Hk5]]]); try done; try lra;
      first [left; lra | right; split; [done|lra]].
  - unfold renderLinks. by intros ->.
Qed.

Lemma links_drawn_iff_witness :
  (linksRendered zoomingRefs = true ↔
   (0.8 < 0.7)%Q ∨ (isZooming zoomingRefs = false ∧ (0.5 <= 0.7)%Q)) ∧
  (linksRendered zoomingRefs = false →
   renderLinks danglingScene [0; 1] None zoomingRefs = []).
Proof.
  apply (links_drawn_iff danglingScene [0; 1] None zoomingRefs 0.7).
  reflexivity.
Defined.

Lemma zoomScaling_value (kq : Q) :
  zoomScaling (Num kq)
  = Num (0.6 + 0.4 * (if Qle_bool 2 kq then 2
                      else if Qle_bool kq 0.5 then 0.5 else kq))%Q.
Proof.
  unfold zoomScaling, min, max, lt.
  destruct (Qle_bool 2 kq); simpl; [done|]. by destruct (Qle_bool kq 0.5).
Qed.

(** The scale brought into [[0.5, 2]] is over 0.5 exactly when the scale
    is. *)
Lemma clamped_scale (kq : Q) :
  let c := (if Qle_bool 2 kq then 2
            else if Qle_bool kq 0.5 then 0.5 else kq)%Q in
  (0.5 <= c)%Q ∧ (c <= 2)%Q ∧ ((0.5 < c)%Q ↔ (0.5 < kq)%Q).
Proof.
  cbv zeta.
  destruct (Qle_bool 2 kq) eqn:H2;
    [apply Qle_bool_iff in H2|apply Qle_bool_false in H2];
    (destruct (Qle_bool kq 0.5) eqn:H5;
     [apply Qle_bool_iff in H5|apply Qle_bool_false in H5]);
    repeat split; intros; lra.
Qed.

(** The radius test of the label, for a base radius [b] with no bonus. *)
Lemma label_radius_test (b kq : Q) :
  ((Num b * zoomScaling (Num kq))%js >? Num 12)%js = true
  ↔ (12 < b * (0.6 + 0.4 * (if Qle_bool 2 kq then 2
                            else if Qle_bool kq 0.5 then 0.5 else kq)))%Q.
Proof.
  rewrite zoomScaling_value. unfold gt. simpl.
  rewrite negb_true_iff. apply Qle_bool_false.
Qed.

Lemma label_radius_today (kq : Q) :
  ((Num 15 * zoomScaling (Num kq))%js >? Num 12)%js = true ↔ (0.5 < kq)%Q.
Proof.
  rewrite label_radius_test.
  destruct (clamped_scale kq) as (Hlo & Hhi & <-). split; intros; lra.
Qed.

Lemma label_radius_center (kq : Q) :
  ((Num 20 * zoomScaling (Num kq))%js >? Num 12)%js = true.
Proof.
  apply label_radius_test. destruct (clamped_scale kq) as (Hlo & Hhi & _).
  lra.
Qed.

Lemma label_radius_plain (kq : Q) :
  ((Num 8 * zoomScaling (Num kq))%js >? Num 12)%js = false.
Proof.
  apply not_true_iff_false. rewrite label_radius_test.
  destruct (clamped_scale kq) as (Hlo & Hhi & _). lra.
Qed.

Lemma if_Some_iff {A} (c : bool) (a : A) :
  (if c then Some a else None) = Some a ↔ c = true.
Proof. destruct c; split; done. Qed.



(** The title of that paper is cut after 20 characters. *)
Example long_title_is_cut :
  renderLabel freshRefs longTitled = Some "Attention Is All You..."%string.
Proof. vm_compute. reflexivity. Qed.

End RenderTheorems.

(** ** Hovering *)

Section HoverTheorems.
Import Store Canvas Hover Spec Vocabulary Examples MoreExamples.

(** X26. Hovering freezes a node and leaving releases it.  From a state
    with nothing hovered, a move onto a node with a non-empty id, the first
    of the array with that id, pins it where it is and records its id in the
    store and in the ref; a following move onto the empty canvas sets its
    pin fields to null, not to what they were before, and clears the store
    and the ref; no other node object is written. *)
Theorem hover_freezes_then_releases (dims : Dimensions) (r : DOMRect)
    (v : View) (e1 e2 : MouseEvent) (w : HoverState) (node : nref)
    (n : Node) :
  hoveredNode (store w) = None → hoveredNodeIdRef w = None →
  getNodeAt {| heap := objects w;
               graphNodes := nodes (graphData (store w));
               dimensions := dims; rect := r |} v
            (m_clientX e1) (m_clientY e1) = Some node →
  nodeObjs (objects w) !! node = Some n → id n ≠ EmptyString →
  List.find (Physics.hasId (objects w) (id n)) (nodes (graphData (store w)))
  = Some node →
  let w1 := hover dims r v e1 w in
  getNodeAt {| heap := objects w1;
               graphNodes := nodes (graphData (store w1));
               dimensions := dims; rect := r |} v
            (m_clientX e2) (m_clientY e2) = None →
  let w2 := hover dims r v e2 w1 in
  Physics.pinsIn (objects w1) node = Some (orNull (x n), orNull (y n)) ∧
  hoveredNode (store w1) = Some (id n) ∧
  hoveredNodeIdRef w1 = Some (id n) ∧ cursor w1 = pointer ∧
  Physics.pinsIn (objects w2) node = Some (PinNull, PinNull) ∧
  hoveredNode (store w2) = None ∧
  hoveredNodeIdRef w2 = None ∧ cursor w2 = default ∧
  (∀ r', r' ≠ node →
         nodeObjs (objects w2) !! r' = nodeObjs (objects w) !! r').
Proof.
  intros Hstore Href Hhit Hobj Hid Hfirst.
  assert (Heq : String.eqb (id n) EmptyString = false)
    by (by apply String.eqb_neq).
  assert (Hw1 : hover dims r v e1 w
    = {| objects := Physics.write_pins node (orNull (x n)) (orNull (y n))
                      (objects w);
         store := setHoveredNode (Some (id n)) (store w);
         hoveredNodeIdRef := Some (id n);
         cursor := pointer |}).
  { unfold hover. rewrite Hhit. unfold hoveredId. rewrite Hobj, Heq, Hstore.
    rewrite decide_False by done. rewrite Href. simpl.
    by rewrite Hobj. }
  cbv zeta. rewrite Hw1. cbn [objects store]. intros Hmiss.
  assert (Hw2 : hover dims r v e2
      {| objects := Physics.write_pins node (orNull (x n)) (orNull (y n))
                      (objects w);
         store := setHoveredNode (Some (id n)) (store w);
         hoveredNodeIdRef := Some (id n);
         cursor := pointer |}
    = {| objects := Physics.write_pins node PinNull PinNull
                      (Physics.write_pins node (orNull (x n)) (orNull (y n))
                         (objects w));
         store := setHoveredNode None
                    (setHoveredNode (Some (id n)) (store w));
         hoveredNodeIdRef := None;
         cursor := default |}).
  { unfold hover. cbn [objects store hoveredNodeIdRef]. rewrite Hmiss.
    cbn [hoveredId]. rewrite decide_False by done.
    unfold releasePrevious. rewrite Heq.
    rewrite (find_ext _ (Physics.hasId (objects w) (id n)))
      by (intros r'; apply hasId_write_pins).
    cbn [graphData setHoveredNode] in *. by rewrite Hfirst. }
  rewrite Hw2. cbn [objects store hoveredNodeIdRef cursor].
  split; [apply pinsIn_write_same; eauto|]. do 3 (split; [done|]).
  split.
  { apply pinsIn_write_same. unfold Physics.write_pins; simpl.
    rewrite lookup_alter_eq, Hobj. simpl. eauto. }
  do 3 (split; [done|]).
  intros r' Hr'. unfold Physics.write_pins; simpl.
  by rewrite !lookup_alter_ne.
Qed.

Lemma hover_freezes_then_releases_witness :
  let w1 := hover initialDimensions windowRect initialView (mouseAt 400 300)
              restingHover in
  let w2 := hover initialDimensions windowRect initialView (mouseAt 700 500)
              w1 in
  Physics.pinsIn (objects w1) 0 = Some (PinAt (Num 0), PinAt (Num 0)) ∧
  hoveredNode (store w1) = Some "A"%string ∧
  hoveredNodeIdRef w1 = Some "A"%string ∧ cursor w1 = pointer ∧
  Physics.pinsIn (objects w2) 0 = Some (PinNull, PinNull) ∧
  hoveredNode (store w2) = None ∧
  hoveredNodeIdRef w2 = None ∧ cursor w2 = default ∧
  (∀ r', r' ≠ 0 →
         nodeObjs (objects w2) !! r' = nodeObjs (objects restingHover) !! r').
Proof.
  apply (hover_freezes_then_releases initialDimensions windowRect initialView
           (mouseAt 400 300) (mouseAt 700 500) restingHover 0
           (placedNode "A" today None 0 0));
    try (vm_compute; reflexivity).
  discriminate.
Defined.

End HoverTheorems.

(** ** A click and its response *)

Section ExpansionTheorems.
Import Store Canvas Spec Vocabulary Examples MoreExamples.

(** What an accepted click leaves behind. *)
Lemma handleClick_accepted (a : App) (dims : Dimensions) (r : DOMRect)
    (cx cy : num) (node : nref) (n : Node) :
  reachable a → isExpandingNode (store a) = false →
  getNodeAt (sceneOf dims r a) (currentView a) cx cy = Some node →
  nodeObjs (Physics.heap (world a)) !! node = Some n →
  handleClick dims r cx cy a
  = {| world := Physics.centerNode (id n) (world a);
       store := set_expanding true (Some (id n))
                  (set_selection (id n) (orZero (x n), orZero (y n))
                     (store a));
       currentView := currentView a;
       inflight := [id n] |}.
Proof.
  intros Hreach Hflag Hhit Hobj.
  destruct (reachable_guardInv a Hreach) as [[_ Hreq]|[Hup _]];
    [|congruence].
  unfold handleClick. by rewrite Hhit, Hflag, Hobj, Hreq.
Qed.

(** X27. A failed expansion leaves the graph alone.  In a reachable state
    with no expansion pending, a click on a node issues one request, for
    that node; when the request fails, the graph of the store is the one
    before the click, the two expansion fields are cleared, no request is
    pending, and the clicked node stays the selected paper. *)
Theorem failed_expansion_leaves_graph (a : App) (dims : Dimensions)
    (r : DOMRect) (cx cy : num) (node : nref) (n : Node) :
  reachable a → isExpandingNode (store a) = false →
  getNodeAt (sceneOf dims r a) (currentView a) cx cy = Some node →
  nodeObjs (Physics.heap (world a)) !! node = Some n →
  let a1 := handleClick dims r cx cy a in
  let a2 := expandRejected 0 a1 in
  inflight a1 = [id n] ∧
  graphData (store a2) = graphData (store a) ∧
  isExpandingNode (store a2) = false ∧
  expandingNodeId (store a2) = None ∧
  inflight a2 = [] ∧
  selectedPaper (store a2) = Some (id n).
Proof.
  intros Hreach Hflag Hhit Hobj. cbv zeta.
  rewrite (handleClick_accepted a dims r cx cy node n) by done.
  by repeat split.
Qed.

Lemma failed_expansion_leaves_graph_witness :
  let a1 := handleClick initialDimensions windowRect (Num 400) (Num 300)
              twoNodeApp in
  let a2 := expandRejected 0 a1 in
  inflight a1 = ["A"%string] ∧
  graphData (store a2) = graphData (store twoNodeApp) ∧
  isExpandingNode (store a2) = false ∧
  expandingNodeId (store a2) = None ∧
  inflight a2 = [] ∧
  selectedPaper (store a2) = Some "A"%string.
Proof.
  apply (failed_expansion_leaves_graph twoNodeApp initialDimensions
           windowRect (Num 400) (Num 300) 0 (placedNode "A" today None 0 0)).
  - apply reach_init.
  - reflexivity.
  - vm_compute. reflexivity.
  - vm_compute. reflexivity.
Defined.

(** X28. A successful expansion merges the response once.  In a reachable
    state with no expansion pending, after a click on a node and the
    response to its request, the graph of the store is the merge of the
    graph before the click with the response, every node and link keeps
    its place in the arrays, the two expansion fields are cleared and no
    request is pending. *)
Theorem successful_expansion_merges_response (a : App) (dims : Dimensions)
    (r : DOMRect) (cx cy : num) (node : nref) (n : Node) (objs : Heap)
    (data : GraphData) :
  reachable a → isExpandingNode (store a) = false →
  getNodeAt (sceneOf dims r a) (currentView a) cx cy = Some node →
  nodeObjs (Physics.heap (world a)) !! node = Some n →
  let a1 := handleClick dims r cx cy a in
  let a2 := expandResolved 0 objs data a1 in
  graphData (store a2)
  = merge (Physics.heap (world a2)) (graphData (store a)) data ∧
  (∀ i r', nodes (graphData (store a)) !! i = Some r' →
           nodes (graphData (store a2)) !! i = Some r') ∧
  (∀ i l, links (graphData (store a)) !! i = Some l →
          links (graphData (store a2)) !! i = Some l) ∧
  isExpandingNode (store a2) = false ∧
  expandingNodeId (store a2) = None ∧
  inflight a2 = [].
Proof.
  intros Hreach Hflag Hhit Hobj. cbv zeta.
  rewrite (handleClick_accepted a dims r cx cy node n) by done.
  unfold expandResolved; simpl. repeat split.
  - intros i r' Hi. by apply lookup_app_l_Some.
  - intros i l Hi. by apply lookup_app_l_Some.
Qed.

Lemma successful_expansion_merges_response_witness :
  let a1 := handleClick initialDimensions windowRect (Num 400) (Num 300)
              twoNodeApp in
  let a2 := expandResolved 0 responseObjects responseData a1 in
  graphData (store a2)
  = merge (Physics.heap (world a2)) (graphData (store twoNodeApp))
      responseData ∧
  (∀ i r', nodes (graphData (store twoNodeApp)) !! i = Some r' →
           nodes (graphData (store a2)) !! i = Some r') ∧
  (∀ i l, links (graphData (store twoNodeApp)) !! i = Some l →
          links (graphData (store a2)) !! i = Some l) ∧
  isExpandingNode (store a2) = false ∧
  expandingNodeId (store a2) = None ∧
  inflight a2 = [].
Proof.
  apply (successful_expansion_merges_response twoNodeApp initialDimensions
           windowRect (Num 400) (Num 300) 0 (placedNode "A" today None 0 0)).
  - apply reach_init.
  - reflexivity.
  - vm_compute. reflexivity.
  - vm_compute. reflexivity.
Defined.

(** After that response the graph has the three nodes and the two links. *)
Example expansion_of_A :
  graphData (store (expandResolved 0 responseObjects responseData expandingA))
  = {| nodes := [0; 1; 2]; links := [0; 1] |}.
Proof. vm_compute. reflexivity. Qed.

End ExpansionTheorems.

(** ** Two more facts on links and on the scale *)

Section Closing.
Import Store Canvas Spec Vocabulary Examples MoreExamples.

(** X29. Where no source id has a hyphen, links are deduplicated by the
    ordered pair of their endpoint ids, a raw id and a resolved node object
    counting alike: the merged links are the existing ones followed by the
    incoming links whose pair is the pair of no existing link. *)
Theorem merge_links_deduplicated_by_pair (h : Heap) (cur inc : GraphData) :
  (∀ l, l ∈ links cur ++ links inc → hyphenFree (linkSourceId h l) = true) →
  links (merge h cur inc) =
  links cur ++ filter (λ l, linkPair h l ∉ (linkPair h <$> links cur))
                      (links inc).
Proof. apply merge_links_by_pair. Qed.

Lemma merge_links_deduplicated_by_pair_witness :
  links (merge scenarioHeap scenarioExisting scenarioIncoming') =
  links scenarioExisting
  ++ filter (λ l, linkPair scenarioHeap l
                  ∉ (linkPair scenarioHeap <$> links scenarioExisting))
            (links scenarioIncoming').
Proof.
  apply merge_links_deduplicated_by_pair.
  intros l Hl. vm_compute in Hl.
  repeat (apply elem_of_cons in Hl as [->|Hl]; [vm_compute; reflexivity|]).
  by apply not_elem_of_nil in Hl.
Defined.

(** X30. Whatever the events, touch moves included, and whatever
    [Math.exp] returns, the scale of the view is a number of [[0.3, 5]] or
    is NaN: it is never an infinity and never a number out of bounds. *)
Theorem scale_in_bounds_or_NaN (exp : num → num)
    (evs : list (Scene * Event)) (e : Physics.PhysicsEngine) :
  within 0.3 5 (k (view (run exp evs (initialRefs e)))) ∨
  k (view (run exp evs (initialRefs e))) = NaN.
Proof.
  apply run_scale_within_or_NaN. left. simpl. lra.
Qed.

End Closing.
